(** * Hex Zone Control: the rules engine of [game.js]

  A shallow embedding of the game logic of [src/game.js] (hex geometry,
  zone of control, the two capture rules, placement, the staged flips
  and the end of the turn), and the properties of the specification
  proved or refuted over it.

  Conventions of the embedding.
  - Hex coordinates are JavaScript numbers holding integers; they are
    modelled as [Z].  [hexRound], the one function that receives
    fractional numbers, is modelled over the rationals [Q].
  - [hexKey q r] is the string [q,r].  It is injective on integer
    coordinates ([KeyFacts.hexKeyString_inj]) and [getPlayerTiles]
    parses it back, so the key of a cell is modelled as the pair
    [(q, r)] itself.
  - A JavaScript [Map] iterates in insertion order and [set] on a key
    already present keeps the position of that key: [JsMap] below is an
    association list with exactly that behaviour.  A JavaScript [Set]
    used only through [add] and [has] is a [gset].
  - [setTimeout] callbacks are kept in a queue of pending timers, with
    their delays, next to the game state ([World]); firing the next
    timer is a transition of its own. *)

From Stdlib Require Import ZArith QArith Qround Qabs Lia Ascii.
From stdpp Require Import base decidable list gmap sets strings pretty sorting.

Local Open Scope Z_scope.

(** Step counts are natural numbers read as integers. *)
#[local] Coercion Z.of_nat : nat >-> Z.

(** ** Constants *)

Definition GRID_SIZE : Z := 8.
Definition TILES_PER_PLAYER : Z := 20.

(** ** Players *)

Inductive Player : Type := WHITE | BLACK.

#[global] Instance Player_eq_dec : EqDecision Player.
Proof. solve_decision. Defined.

(** [currentPlayer === PLAYER.WHITE ? PLAYER.BLACK : PLAYER.WHITE] *)
Definition other (p : Player) : Player :=
  match p with WHITE => BLACK | BLACK => WHITE end.

(** ** Hex coordinates *)

Abbreviation Hex := (Z * Z)%type.

(** [hexKey]: the key of a cell in the tiles map (see the conventions). *)
Definition hexKey (q r : Z) : Hex := (q, r).

Definition isValidHex (q r : Z) : bool :=
  let s := - q - r in
  (Z.abs q <? GRID_SIZE) && (Z.abs r <? GRID_SIZE) && (Z.abs s <? GRID_SIZE).

(** A coordinate pair that is on the board. *)
Definition validHex (h : Hex) : Prop := isValidHex (fst h) (snd h) = true.

#[global] Instance validHex_dec (h : Hex) : Decision (validHex h).
Proof. unfold validHex. apply _. Defined.

(** East, Northeast, Northwest, West, Southwest, Southeast. *)
Definition directions : list Hex :=
  [ (1, 0); (1, -1); (0, -1); (-1, 0); (-1, 1); (0, 1) ].

(** Case analysis on a member [H : d ∈ directions] of the list. *)
Ltac each_direction H :=
  unfold directions in H;
  repeat (apply elem_of_cons in H as [-> | H]);
  try (apply elem_of_nil in H; contradiction).

Definition getSurroundingHexes (q r : Z) : list Hex :=
  map (fun d => (q + fst d, r + snd d)) directions.

Definition getNeighbors (q r : Z) : list Hex :=
  filter validHex (getSurroundingHexes q r).

Definition getZOCHexes (q r : Z) : list Hex :=
  (q, r) :: getSurroundingHexes q r.

(** The two nested [for] loops over [-(GRID_SIZE - 1) .. GRID_SIZE - 1]. *)
Definition getAllValidHexes : list Hex :=
  q ← seqZ (- (GRID_SIZE - 1)) (2 * GRID_SIZE - 1);
  r ← seqZ (- (GRID_SIZE - 1)) (2 * GRID_SIZE - 1);
  if isValidHex q r then [(q, r)] else [].

(** ** Rounding of fractional coordinates

    The source computes [hexRound] on doubles.  The definitions below
    compute on exact rationals.  The two agree where every operation of
    the source is exact, in particular on integer inputs (below 2^53),
    which is the case treated here; on other fractions the doubles of
    [-q - r] and of the three differences are rounded, and the branch
    taken can differ. *)

Module Round.

(** [Math.round]: the nearest integer, halves going up. *)
Definition Math_round (x : Q) : Z := Qfloor (x + (1 # 2))%Q.

(** [a > b] on numbers. *)
Definition gt (a b : Q) : bool := negb (Qle_bool a b).

Definition hexRound (q r : Q) : Z * Z :=
  let s := (- q - r)%Q in
  let rq := Math_round q in
  let rr := Math_round r in
  let rs := Math_round s in
  let qDiff := Qabs (inject_Z rq - q) in
  let rDiff := Qabs (inject_Z rr - r) in
  let sDiff := Qabs (inject_Z rs - s) in
  if gt qDiff rDiff && gt qDiff sDiff then (- rr - rs, rr)
  else if gt rDiff sDiff then (rq, - rq - rs)
  else (rq, rr).

End Round.

(** ** JavaScript [Map]: insertion-ordered association list *)

Module JsMap.
Section JsMap.
Context {K V : Type} `{EqDecision K}.

Definition t := list (K * V).

Definition empty : t := [].

Fixpoint get (m : t) (k : K) : option V :=
  match m with
  | [] => None
  | (k', v) :: m' => if decide (k' = k) then Some v else get m' k
  end.

Definition has (m : t) (k : K) : bool :=
  match get m k with Some _ => true | None => false end.

(** [set] overwrites in place when the key is present and appends
    otherwise. *)
Fixpoint set (m : t) (k : K) (v : V) : t :=
  match m with
  | [] => [(k, v)]
  | (k', v') :: m' =>
      if decide (k' = k) then (k', v) :: m' else (k', v') :: set m' k v
  end.

Definition keys (m : t) : list K := map fst m.
Definition values (m : t) : list V := map snd m.
Definition size (m : t) : nat := length m.

End JsMap.
Arguments t : clear implicits.
End JsMap.

(** ** Game state *)

(** An entry [{q, r, distance}] of a flip list. *)
Record Flip : Type := mkFlip { flip_q : Z; flip_r : Z; distance : Z }.

#[global] Instance Flip_eq_dec : EqDecision Flip.
Proof. solve_decision. Defined.

Definition flipKey (flip : Flip) : Hex := hexKey (flip_q flip) (flip_r flip).

(** [gameState.tiles]: a [Map] from the key of a cell to its owner. *)
Abbreviation Tiles := (JsMap.t Hex Player).

Record GameState : Type := mkGameState {
  currentPlayer : Player;
  tiles : Tiles;
  whiteTilesRemaining : Z;
  blackTilesRemaining : Z;
  hoveredHex : option Hex;
  lastPlacedTile : option (Hex * Player);
  lastPlacedTime : Z;
  gameOver : bool;
  debugMode : bool;
  animatingFlips : list (Hex * Z);
  isAnimating : bool
}.

(** The initial value of [gameState]. *)
Definition initialState : GameState :=
  {| currentPlayer := WHITE;
     tiles := JsMap.empty;
     whiteTilesRemaining := TILES_PER_PLAYER;
     blackTilesRemaining := TILES_PER_PLAYER;
     hoveredHex := None;
     lastPlacedTile := None;
     lastPlacedTime := 0;
     gameOver := false;
     debugMode := false;
     animatingFlips := [];
     isAnimating := false |}.

Definition with_tiles (gs : GameState) (t : Tiles) : GameState :=
  mkGameState (currentPlayer gs) t (whiteTilesRemaining gs)
    (blackTilesRemaining gs) (hoveredHex gs) (lastPlacedTile gs)
    (lastPlacedTime gs) (gameOver gs) (debugMode gs) (animatingFlips gs)
    (isAnimating gs).

Definition with_currentPlayer (gs : GameState) (p : Player) : GameState :=
  mkGameState p (tiles gs) (whiteTilesRemaining gs)
    (blackTilesRemaining gs) (hoveredHex gs) (lastPlacedTile gs)
    (lastPlacedTime gs) (gameOver gs) (debugMode gs) (animatingFlips gs)
    (isAnimating gs).

Definition with_whiteTilesRemaining (gs : GameState) (n : Z) : GameState :=
  mkGameState (currentPlayer gs) (tiles gs) n
    (blackTilesRemaining gs) (hoveredHex gs) (lastPlacedTile gs)
    (lastPlacedTime gs) (gameOver gs) (debugMode gs) (animatingFlips gs)
    (isAnimating gs).

Definition with_blackTilesRemaining (gs : GameState) (n : Z) : GameState :=
  mkGameState (currentPlayer gs) (tiles gs) (whiteTilesRemaining gs)
    n (hoveredHex gs) (lastPlacedTile gs)
    (lastPlacedTime gs) (gameOver gs) (debugMode gs) (animatingFlips gs)
    (isAnimating gs).

Definition with_lastPlaced (gs : GameState) (t : Hex * Player) (now : Z)
  : GameState :=
  mkGameState (currentPlayer gs) (tiles gs) (whiteTilesRemaining gs)
    (blackTilesRemaining gs) (hoveredHex gs) (Some t)
    now (gameOver gs) (debugMode gs) (animatingFlips gs)
    (isAnimating gs).

Definition with_gameOver (gs : GameState) (b : bool) : GameState :=
  mkGameState (currentPlayer gs) (tiles gs) (whiteTilesRemaining gs)
    (blackTilesRemaining gs) (hoveredHex gs) (lastPlacedTile gs)
    (lastPlacedTime gs) b (debugMode gs) (animatingFlips gs)
    (isAnimating gs).

Definition with_isAnimating (gs : GameState) (b : bool) : GameState :=
  mkGameState (currentPlayer gs) (tiles gs) (whiteTilesRemaining gs)
    (blackTilesRemaining gs) (hoveredHex gs) (lastPlacedTile gs)
    (lastPlacedTime gs) (gameOver gs) (debugMode gs) (animatingFlips gs)
    b.

Definition with_hoveredHex (gs : GameState) (h : option Hex) : GameState :=
  mkGameState (currentPlayer gs) (tiles gs) (whiteTilesRemaining gs)
    (blackTilesRemaining gs) h (lastPlacedTile gs)
    (lastPlacedTime gs) (gameOver gs) (debugMode gs) (animatingFlips gs)
    (isAnimating gs).

Definition with_debugMode (gs : GameState) (b : bool) : GameState :=
  mkGameState (currentPlayer gs) (tiles gs) (whiteTilesRemaining gs)
    (blackTilesRemaining gs) (hoveredHex gs) (lastPlacedTile gs)
    (lastPlacedTime gs) (gameOver gs) b (animatingFlips gs)
    (isAnimating gs).

(** ** Zone of control *)

(** The tiles of a player, in the iteration order of the map. *)
Definition getPlayerTiles (t : Tiles) (player : Player) : list Hex :=
  map fst (filter (fun e => snd e = player) t).

Definition calculateZOC (t : Tiles) (player : Player) : gset Hex :=
  foldl
    (fun zoc tile =>
       foldl
         (fun zoc hex =>
            if isValidHex (fst hex) (snd hex) then zoc ∪ {[ hex ]} else zoc)
         zoc (getZOCHexes (fst tile) (snd tile)))
    ∅ (getPlayerTiles t player).

(** The loop of [isTileSurrounded] over the surrounding hexes: an
    off-board hex is skipped, a valid hex outside the zone returns
    [false]. *)
Fixpoint surroundedLoop (surrounding : list Hex) (enemyZOC : gset Hex)
  : bool :=
  match surrounding with
  | [] => true
  | hex :: rest =>
      if negb (isValidHex (fst hex) (snd hex)) then
        surroundedLoop rest enemyZOC
      else if negb (bool_decide (hex ∈ enemyZOC)) then false
      else surroundedLoop rest enemyZOC
  end.

Definition isTileSurrounded (q r : Z) (enemyZOC : gset Hex) : bool :=
  surroundedLoop (getSurroundingHexes q r) enemyZOC.

(** ** Scans along a direction

    Both [while (isValidHex(q, r))] loops are written with a fuel that
    bounds the number of iterations; [None] means that the fuel ran out.
    [scanFuel] iterations are always enough (see [othelloLine_total] and
    [straightLine_total]): a scan leaves the board after at most
    [2 * GRID_SIZE - 1] cells. *)

Definition scanFuel : nat := Z.to_nat (2 * GRID_SIZE).

(** The body of the [for] loop of [getOthelloFlips] for one direction:
    the flips that the direction adds to [allFlips]. *)
Fixpoint othelloLine (fuel : nat) (t : Tiles) (currentPlayer : Player)
  (dir : Hex) (q r distance : Z) (lineFlips : list Flip)
  : option (list Flip) :=
  match fuel with
  | O => None
  | S fuel' =>
      if isValidHex q r then
        let tileOwner := JsMap.get t (hexKey q r) in
        if decide (tileOwner = Some (other currentPlayer)) then
          othelloLine fuel' t currentPlayer dir (q + fst dir) (r + snd dir)
            (distance + 1) (lineFlips ++ [mkFlip q r distance])
        else if decide (tileOwner = Some currentPlayer) then Some lineFlips
        else Some []
      else Some []
  end.

Definition getOthelloFlips (t : Tiles) (placedQ placedR : Z)
  (currentPlayer : Player) : list Flip :=
  foldl
    (fun allFlips dir =>
       allFlips ++
       default []
         (othelloLine scanFuel t currentPlayer dir
            (placedQ + fst dir) (placedR + snd dir) 1 []))
    [] directions.

(** The [while] loop of [getTilesInStraightLines] for one direction,
    pushing on [tilesToFlip]. *)
Fixpoint straightLine (fuel : nat) (t : Tiles) (player : Player)
  (dir : Hex) (q r : Z) (tilesToFlip : list Hex) : option (list Hex) :=
  match fuel with
  | O => None
  | S fuel' =>
      if isValidHex q r then
        if decide (JsMap.get t (hexKey q r) = Some player) then
          straightLine fuel' t player dir (q + fst dir) (r + snd dir)
            (tilesToFlip ++ [(q, r)])
        else Some tilesToFlip
      else Some tilesToFlip
  end.

Definition getTilesInStraightLines (t : Tiles) (startQ startR : Z)
  (player : Player) : list Hex :=
  foldl
    (fun tilesToFlip dir =>
       default tilesToFlip
         (straightLine scanFuel t player dir
            (startQ + fst dir) (startR + snd dir) tilesToFlip))
    [] directions.

(** ** Surround rule *)

Definition getSurroundedFlips (t : Tiles) (attackingPlayer : Player)
  : list Flip :=
  let defendingPlayer := other attackingPlayer in
  let attackerZOC := calculateZOC t attackingPlayer in
  let defendingTiles := getPlayerTiles t defendingPlayer in
  foldl
    (fun flips tile =>
       if isTileSurrounded (fst tile) (snd tile) attackerZOC then
         let linesTiles :=
           getTilesInStraightLines t (fst tile) (snd tile) defendingPlayer in
         (flips ++ [mkFlip (fst tile) (snd tile) 1]) ++
         imap (fun idx lt => mkFlip (fst lt) (snd lt) (Z.of_nat idx + 2))
           linesTiles
       else flips)
    [] defendingTiles.

(** [flipTiles]: every listed tile goes to [newPlayer].  Its only caller
    in the source, [processSurroundedTiles], is itself never called: the
    flips of a placement go through [animateFlips]. *)
Definition flipTiles (t : Tiles) (tilesToFlip : list Hex)
  (newPlayer : Player) : Tiles :=
  foldl (fun t tile => JsMap.set t (hexKey (fst tile) (snd tile)) newPlayer)
    t tilesToFlip.

(** ** Merging the two flip lists *)

(** [flip.distance || 1] *)
Definition distanceOr1 (flip : Flip) : Flip :=
  mkFlip (flip_q flip) (flip_r flip)
    (if distance flip =? 0 then 1 else distance flip).

Definition mergeFlips (othelloFlips surroundedFlips : list Flip)
  : list Flip :=
  let allFlipsMap : JsMap.t Hex Flip := JsMap.empty in
  let allFlipsMap :=
    foldl
      (fun m flip =>
         if negb (JsMap.has m (flipKey flip))
         then JsMap.set m (flipKey flip) flip else m)
      allFlipsMap othelloFlips in
  let allFlipsMap :=
    foldl
      (fun m flip =>
         if negb (JsMap.has m (flipKey flip))
         then JsMap.set m (flipKey flip) (distanceOr1 flip) else m)
      allFlipsMap surroundedFlips in
  JsMap.values allFlipsMap.

(** ** The world around the game state: timers and the game-over modal *)

Inductive Outcome : Type := WhiteWins | BlackWins | Tie.

(** What [showGameOver] writes: the winner text and the final score
    (white, black). *)
Record Modal : Type := mkModal {
  winnerText : Outcome;
  finalScore : nat * nat
}.

(** The two kinds of callback that [animateFlips] hands to [setTimeout]:
    the flips of one distance, and the end of the animation. *)
Inductive TimerAction : Type :=
| FlipBatch (flipsAtDist : list Flip) (newPlayer : Player)
| FinishAnimation.

Record Timer : Type := mkTimer { delay : Z; action : TimerAction }.

Record World : Type := mkWorld {
  gameState : GameState;
  timers : list Timer;
  modal : option Modal
}.

Definition initialWorld : World := mkWorld initialState [] None.

Definition countTiles (t : Tiles) : nat * nat :=
  foldl
    (fun c player =>
       match player with
       | WHITE => (S (fst c), snd c)
       | BLACK => (fst c, S (snd c))
       end)
    (O, O) (JsMap.values t).

Definition outcomeOf (scores : nat * nat) : Outcome :=
  if (snd scores <? fst scores)%nat then WhiteWins
  else if (fst scores <? snd scores)%nat then BlackWins
  else Tie.

Definition showGameOver (w : World) : World :=
  let scores := countTiles (tiles (gameState w)) in
  mkWorld (gameState w) (timers w) (Some (mkModal (outcomeOf scores) scores)).

Definition finishTurn (w : World) : World :=
  let gs := gameState w in
  if (whiteTilesRemaining gs =? 0) && (blackTilesRemaining gs =? 0) then
    showGameOver (mkWorld (with_gameOver gs true) (timers w) (modal w))
  else
    mkWorld (with_currentPlayer gs (other (currentPlayer gs)))
      (timers w) (modal w).

(** *** Staging the flips *)

(** [flips.sort((a, b) => a.distance - b.distance)]: a stable sort. *)
Fixpoint insertByDistance (flip : Flip) (sorted : list Flip) : list Flip :=
  match sorted with
  | [] => [flip]
  | g :: rest =>
      if distance g <? distance flip then g :: insertByDistance flip rest
      else flip :: g :: rest
  end.

Definition sortByDistance (flips : list Flip) : list Flip :=
  foldr insertByDistance [] flips.

Definition groupByDistance (flips : list Flip) : JsMap.t Z (list Flip) :=
  foldl
    (fun m flip =>
       let dist := distance flip in
       let m := if negb (JsMap.has m dist) then JsMap.set m dist [] else m in
       JsMap.set m dist (default [] (JsMap.get m dist) ++ [flip]))
    JsMap.empty flips.

(** [keys.sort((a, b) => a - b)] *)
Fixpoint insertZ (x : Z) (sorted : list Z) : list Z :=
  match sorted with
  | [] => [x]
  | y :: rest => if y <? x then y :: insertZ x rest else x :: y :: rest
  end.

Definition sortZ (l : list Z) : list Z := foldr insertZ [] l.

Definition delayIncrement : Z := 150.

(** The [distances.forEach] loop: one timer per distance; returns the
    timers and the final value of [delay]. *)
Fixpoint scheduleBatches (distances : list Z)
  (flipsByDistance : JsMap.t Z (list Flip)) (newPlayer : Player) (delay : Z)
  : list Timer * Z :=
  match distances with
  | [] => ([], delay)
  | dist :: rest =>
      let flipsAtDist := default [] (JsMap.get flipsByDistance dist) in
      let '(ts, delay') :=
        scheduleBatches rest flipsByDistance newPlayer
          (delay + delayIncrement) in
      (mkTimer delay (FlipBatch flipsAtDist newPlayer) :: ts, delay')
  end.

Definition animateFlips (w : World) (flips : list Flip) (newPlayer : Player)
  : World :=
  let gs := with_isAnimating (gameState w) true in
  let flips := sortByDistance flips in
  let flipsByDistance := groupByDistance flips in
  let distances := sortZ (JsMap.keys flipsByDistance) in
  let '(batches, delay) :=
    scheduleBatches distances flipsByDistance newPlayer 0 in
  mkWorld gs (timers w ++ batches ++ [mkTimer delay FinishAnimation])
    (modal w).

(** The callback of one batch: every flip of the batch is set to the new
    owner, on the state as it is when the timer fires. *)
Definition applyBatch (t : Tiles) (flipsAtDist : list Flip)
  (newPlayer : Player) : Tiles :=
  foldl (fun t flip => JsMap.set t (flipKey flip) newPlayer) t flipsAtDist.

Definition runTimer (w : World) (a : TimerAction) : World :=
  match a with
  | FlipBatch flipsAtDist newPlayer =>
      mkWorld
        (with_tiles (gameState w)
           (applyBatch (tiles (gameState w)) flipsAtDist newPlayer))
        (timers w) (modal w)
  | FinishAnimation =>
      finishTurn
        (mkWorld (with_isAnimating (gameState w) false) (timers w) (modal w))
  end.

(** The next pending timer fires.  The queue is in the order of
    registration, and [animateFlips] registers its timers with strictly
    increasing delays ([animateFlips_timers]), so the head is the timer
    that is due first. *)
Definition fireTimer (w : World) : World :=
  match timers w with
  | [] => w
  | tm :: rest => runTimer (mkWorld (gameState w) rest (modal w)) (action tm)
  end.

(** ** Placing a tile *)

(** [placeTile(q, r)], with [now] the value of [Date.now()]; returns the
    boolean result and the world after the call. *)
Definition placeTile (w : World) (q r : Z) (now : Z) : bool * World :=
  let gs := gameState w in
  if gameOver gs || isAnimating gs then (false, w) else
  let key := hexKey q r in
  if negb (isValidHex q r) || JsMap.has (tiles gs) key then (false, w) else
  if bool_decide (currentPlayer gs = WHITE) && (whiteTilesRemaining gs <=? 0)
  then (false, w) else
  if bool_decide (currentPlayer gs = BLACK) && (blackTilesRemaining gs <=? 0)
  then (false, w) else
  let currentPlayer := currentPlayer gs in
  let gs := with_tiles gs (JsMap.set (tiles gs) key currentPlayer) in
  let gs :=
    if bool_decide (currentPlayer = WHITE)
    then with_whiteTilesRemaining gs (whiteTilesRemaining gs - 1)
    else with_blackTilesRemaining gs (blackTilesRemaining gs - 1) in
  let gs := with_lastPlaced gs ((q, r), currentPlayer) now in
  let othelloFlips := getOthelloFlips (tiles gs) q r currentPlayer in
  let surroundedFlips := getSurroundedFlips (tiles gs) currentPlayer in
  let allFlips := mergeFlips othelloFlips surroundedFlips in
  let w := mkWorld gs (timers w) (modal w) in
  if (0 <? length allFlips)%nat
  then (true, animateFlips w allFlips currentPlayer)
  else (true, finishTurn w).

(** The merged capture set of a placement of [currentPlayer] at [(q, r)]
    on the board [t] (the board before the tile is put down). *)
Definition captureSet (t : Tiles) (q r : Z) (currentPlayer : Player)
  : list Flip :=
  let t' := JsMap.set t (hexKey q r) currentPlayer in
  mergeFlips (getOthelloFlips t' q r currentPlayer)
    (getSurroundedFlips t' currentPlayer).

(** ** The other handlers *)

(** [handleClick], with the hex under the pointer already computed by
    [pixelToHex]. *)
Definition handleClick (w : World) (q r : Z) (now : Z) : World :=
  if gameOver (gameState w) then w else snd (placeTile w q r now).

Definition handleMouseMove (w : World) (hex : Hex) : World :=
  mkWorld
    (with_hoveredHex (gameState w)
       (if isValidHex (fst hex) (snd hex) then Some hex else None))
    (timers w) (modal w).

Definition handleMouseLeave (w : World) : World :=
  mkWorld (with_hoveredHex (gameState w) None) (timers w) (modal w).

Definition toggleDebugMode (w : World) : World :=
  mkWorld (with_debugMode (gameState w) (negb (debugMode (gameState w))))
    (timers w) (modal w).

(** [resetGame] replaces the game state by a fresh one (keeping
    [debugMode]) and hides the modal; it leaves the pending timers where
    they are. *)
Definition resetGame (w : World) : World :=
  mkWorld (with_debugMode initialState (debugMode (gameState w)))
    (timers w) None.

(** ** Runs of the game *)

(** What happens during one game: clicks on a hex, timers firing, and
    the pointer and debug handlers.  The restart buttons, which call
    [resetGame], abandon the game and start another one: they are inputs
    of a session (see [Input] below), not events of a game. *)
Inductive Event : Type :=
| Click (q r : Z) (now : Z)
| TimerFires
| MouseMove (hex : Hex)
| MouseLeave
| ToggleDebug.

Definition step (w : World) (e : Event) : World :=
  match e with
  | Click q r now => handleClick w q r now
  | TimerFires => fireTimer w
  | MouseMove hex => handleMouseMove w hex
  | MouseLeave => handleMouseLeave w
  | ToggleDebug => toggleDebugMode w
  end.

Definition run (w : World) (es : list Event) : World := foldl step w es.

(** The worlds that a game reaches from the initial one. *)
Inductive reachable : World -> Prop :=
| reachable_init : reachable initialWorld
| reachable_step w e : reachable w -> reachable (step w e).

(** [n] timers fire in a row. *)
Fixpoint fireTimers (n : nat) (w : World) : World :=
  match n with
  | O => w
  | S n' => fireTimers n' (fireTimer w)
  end.

(** ** Sessions

    The restart and the play-again buttons call [resetGame].  A session
    is what the page receives: the events of the games and the restarts
    between them.  [resetGame] cancels no timeout: after a restart
    during an animation the timers of the abandoned game are still
    pending, and they fire on the board of the new game. *)
Inductive Input : Type :=
| Play (e : Event)
| Restart.

Definition stepInput (w : World) (i : Input) : World :=
  match i with
  | Play e => step w e
  | Restart => resetGame w
  end.

Definition session (w : World) (ins : list Input) : World :=
  foldl stepInput w ins.

(** No restart of the session comes while an animation is running. *)
Fixpoint idleRestarts (w : World) (ins : list Input) : bool :=
  match ins with
  | [] => true
  | i :: rest =>
      match i with
      | Play _ => true
      | Restart => negb (isAnimating (gameState w))
      end && idleRestarts (stepInput w i) rest
  end.

(** ** Notions used in the statements *)

(** The cell [k] steps away from [(q, r)] in direction [dir]. *)
Definition ray (q r : Z) (dir : Hex) (k : Z) : Hex :=
  (q + k * fst dir, r + k * snd dir).

(** The flip of the cell [k] steps away, with its distance. *)
Definition flipAt (q r : Z) (dir : Hex) (k : Z) : Flip :=
  mkFlip (fst (ray q r dir k)) (snd (ray q r dir k)) k.

(** The flips of the [n] cells from step [k0] on along a direction. *)
Definition rayFlipsFrom (q r : Z) (dir : Hex) (k0 n : nat) : list Flip :=
  map (fun k => flipAt q r dir (Z.of_nat k)) (seq k0 n).

(** The flips [(ray 1, 1), ..., (ray n, n)] along a direction. *)
Definition rayFlips (q r : Z) (dir : Hex) (n : nat) : list Flip :=
  rayFlipsFrom q r dir 1 n.

(** The cell [c] belongs to the opponent of [p]. *)
Definition opponentAt (t : Tiles) (p : Player) (c : Hex) : Prop :=
  validHex c ∧ JsMap.get t c = Some (other p).

(** The cell [c] belongs to [p]. *)
Definition ownAt (t : Tiles) (p : Player) (c : Hex) : Prop :=
  validHex c ∧ JsMap.get t c = Some p.

(** The first entry of a flip list for a coordinate. *)
Definition entryOf (c : Hex) (flips : list Flip) : option Flip :=
  snd <$> list_find (fun flip => flipKey flip = c) flips.

(** The board invariant of the data model: every key is a valid
    coordinate and occurs once. *)
Definition boardOk (t : Tiles) : Prop :=
  NoDup (JsMap.keys t) ∧ Forall validHex (JsMap.keys t).

(** The supply of a player. *)
Definition remaining (gs : GameState) (p : Player) : Z :=
  match p with
  | WHITE => whiteTilesRemaining gs
  | BLACK => blackTilesRemaining gs
  end.

(** The five reasons for which a placement request is turned down. *)
Definition rejected (w : World) (q r : Z) : Prop :=
  let gs := gameState w in
  gameOver gs = true ∨ isAnimating gs = true ∨ isValidHex q r = false ∨
  JsMap.has (tiles gs) (hexKey q r) = true ∨
  remaining gs (currentPlayer gs) <= 0.

#[global] Instance rejected_dec (w : World) (q r : Z) :
  Decision (rejected w q r).
Proof. unfold rejected. apply _. Defined.

(** The game state of an accepted placement once the tile is down and
    paid for, before any flip. *)
Definition putTile (gs : GameState) (q r now : Z) : GameState :=
  let p := currentPlayer gs in
  mkGameState p (JsMap.set (tiles gs) (hexKey q r) p)
    (if bool_decide (p = WHITE) then whiteTilesRemaining gs - 1
     else whiteTilesRemaining gs)
    (if bool_decide (p = WHITE) then blackTilesRemaining gs
     else blackTilesRemaining gs - 1)
    (hoveredHex gs) (Some ((q, r), p)) now (gameOver gs) (debugMode gs)
    (animatingFlips gs) (isAnimating gs).

(** The owner of a cell. *)
Definition occupant (w : World) (c : Hex) : option Player :=
  JsMap.get (tiles (gameState w)) c.

(** The contribution of one direction to [getOthelloFlips]. *)
Definition lineCapture (t : Tiles) (placedQ placedR : Z)
  (currentPlayer : Player) (dir : Hex) : list Flip :=
  default []
    (othelloLine scanFuel t currentPlayer dir
       (placedQ + fst dir) (placedR + snd dir) 1 []).

(** The number of cells from [(q, r)] to the edge of the board, going in
    direction [dir]: the bound on the iterations of a scan. *)
Definition toEdge (dir : Hex) (q r : Z) : Z :=
  GRID_SIZE - (if fst dir =? 0 then snd dir * r else fst dir * q).

(** A map of flips whose entries sit under their own key. *)
Definition keyed (m : JsMap.t Hex Flip) : Prop :=
  Forall (fun e => flipKey (snd e) = fst e) m.

(** The shape of the two [forEach] loops that fill [allFlipsMap]; [g] is
    what the loop does to a flip before it stores it. *)
Definition addFlips (g : Flip → Flip) (m : JsMap.t Hex Flip)
  (flips : list Flip) : JsMap.t Hex Flip :=
  foldl
    (fun m flip =>
       if negb (JsMap.has m (flipKey flip))
       then JsMap.set m (flipKey flip) (g flip) else m)
    m flips.

(** The statement that every line-captured cell of a placement carries
    rank 1 in the merged capture set. *)
Definition lineFlipsRank1 (t : Tiles) (q r : Z) (p : Player) : Prop :=
  ∀ f, f ∈ getOthelloFlips (JsMap.set t (hexKey q r) p) q r p →
    ∃ f', entryOf (flipKey f) (captureSet t q r p) = Some f' ∧
          distance f' = 1.

(** ** Sample positions *)

(** White (3,0), Black (1,0), White (-5,0), Black (2,0): the next tile of
    White at (0,0) brackets the two black tiles. *)
Definition bracketEvents : list Event :=
  [Click 3 0 0; Click 1 0 0; Click (-5) 0 0; Click 2 0 0].

Definition bracketWorld : World := run initialWorld bracketEvents.

(** A session with a restart between two games: one tile, a restart
    (no animation is running), then the bracket position. *)
Definition idleInputs : list Input :=
  [Play (Click 3 0 0); Restart] ++ map Play bracketEvents.

(** The same session followed by the tile of White at (0,0) and the
    three timers of its animation. *)
Definition resolvedInputs : list Input :=
  idleInputs ++
  [Play (Click 0 0 0); Play TimerFires; Play TimerFires; Play TimerFires].

(** A restart during an animation: in the bracket position White places
    at (0,0), which stages two batches of flips (after 0 and 150 ms) and
    the end of the animation (after 300 ms); the first batch fires, and
    the restart button is clicked before the second one. *)
Definition restartInputs : list Input :=
  map Play bracketEvents ++ [Play (Click 0 0 0); Play TimerFires; Restart].


(** After that restart the two pending timers fire, and the next
    request, at (-3,3), is made. *)
Definition restartPlayInputs : list Input :=
  restartInputs ++ [Play TimerFires; Play TimerFires; Play (Click (-3) 3 0)].

(** White (2,0), Black (1,0): the next tile of White at (0,0) brackets
    the black tile and surrounds it as well. *)
Definition dedupEvents : list Event := [Click 2 0 0; Click 1 0 0].

Definition dedupWorld : World := run initialWorld dedupEvents.

(** The zone of one tile: the valid cells among the tile and its six
    surrounding cells. *)
Definition tileZone (tile : Hex) : gset Hex :=
  list_to_set (filter validHex (getZOCHexes (fst tile) (snd tile))).

(** Every flip of every pending batch satisfies [P] (which may depend on
    the new owner of the batch). *)
Definition queueOk (P : Flip → Player → Prop) (ts : list Timer) : Prop :=
  Forall
    (fun tm =>
       match action tm with
       | FlipBatch flipsAtDist newPlayer =>
           Forall (fun f => P f newPlayer) flipsAtDist
       | FinishAnimation => True
       end)
    ts.

Definition isBatch (tm : Timer) : Prop :=
  match action tm with FlipBatch _ _ => True | FinishAnimation => False end.

(** While flips are staged the queue holds batches followed by the one
    timer that ends the animation; otherwise it is empty. *)
Definition staged (w : World) : Prop :=
  if isAnimating (gameState w) then
    gameOver (gameState w) = false ∧
    ∃ batches d,
      timers w = batches ++ [mkTimer d FinishAnimation] ∧
      Forall isBatch batches
  else timers w = [].

(** The invariant of the reachable worlds. *)
Definition Inv (w : World) : Prop :=
  let gs := gameState w in
  boardOk (tiles gs) ∧
  queueOk (fun f _ => flipKey f ∈ JsMap.keys (tiles gs)) (timers w) ∧
  staged w ∧
  Z.of_nat (length (tiles gs)) =
    (TILES_PER_PLAYER - whiteTilesRemaining gs) +
    (TILES_PER_PLAYER - blackTilesRemaining gs).

(** The step calls [finishTurn]: an accepted placement that captures
    nothing, or the timer that ends the animation. *)
Definition endsTurn (w : World) (e : Event) : Prop :=
  match e with
  | Click q r now =>
      ¬ rejected w q r ∧
      captureSet (tiles (gameState w)) q r (currentPlayer (gameState w)) = []
  | TimerFires =>
      ∃ tm rest, timers w = tm :: rest ∧ action tm = FinishAnimation
  | MouseMove _ | MouseLeave | ToggleDebug => False
  end.

(** A whole game: the two players fill the first forty cells of the
    board in turn, and after each request the pending timers fire. *)
Definition fullGameEvents : list Event :=
  c ← take 40 getAllValidHexes;
  Click (fst c) (snd c) 0 :: replicate 20 TimerFires.

Definition fullGameWorld : World := run initialWorld fullGameEvents.

Definition fullGameInputs : list Input := map Play fullGameEvents.

(** ** The keys as strings *)

(** [hexKey] as the source computes it: the decimal numerals of [q] and
    of [r] around a comma.  (JavaScript prints a number in this way up
    to 1e21, far beyond the coordinates of the board.) *)
Definition hexKeyString (q r : Z) : string :=
  pretty q +:+ "," +:+ pretty r.

Fixpoint commaFree (s : string) : Prop :=
  match s with
  | EmptyString => True
  | String c s' => c ≠ ","%char ∧ commaFree s'
  end.

(** ** Notions for the surround rule *)

(** The contribution of one direction to [getTilesInStraightLines]. *)
Definition straightRun (t : Tiles) (startQ startR : Z) (player : Player)
  (dir : Hex) : list Hex :=
  default []
    (straightLine scanFuel t player dir
       (startQ + fst dir) (startR + snd dir) []).

(** The cells [ray 1, ..., ray n] along a direction. *)
Definition rayCells (q r : Z) (dir : Hex) (n : nat) : list Hex :=
  map (fun k : nat => ray q r dir (Z.of_nat k)) (seq 1 n).

(** The tiles of the defending player that the zone of the attacking
    player surrounds, in the iteration order of the map. *)
Definition surroundedTiles (t : Tiles) (attackingPlayer : Player)
  : list Hex :=
  filter
    (fun tile =>
       isTileSurrounded (fst tile) (snd tile)
         (calculateZOC t attackingPlayer) = true)
    (getPlayerTiles t (other attackingPlayer)).

(** The flips that one surrounded tile contributes: the tile with rank
    1, then the tiles of its straight lines with ranks 2, 3, ... *)
Definition surroundFlipsOf (t : Tiles) (attackingPlayer : Player)
  (tile : Hex) : list Flip :=
  mkFlip (fst tile) (snd tile) 1 ::
  imap (fun idx lt => mkFlip (fst lt) (snd lt) (Z.of_nat idx + 2))
    (getTilesInStraightLines t (fst tile) (snd tile)
       (other attackingPlayer)).

(** ** Notions for the staging of the flips *)

(** The flips of a list that have a given rank, in the order of the
    list. *)
Definition flipsAt (flips : list Flip) (dist : Z) : list Flip :=
  filter (fun f => distance f = dist) flips.

(** One batch timer per rank of the list [dists]: the [i]-th one fires
    after [i] delay increments and flips the tiles of that rank. *)
Definition batchTimers (flips : list Flip) (newPlayer : Player)
  (dists : list Z) : list Timer :=
  imap
    (fun i dist =>
       mkTimer (delayIncrement * Z.of_nat i)
         (FlipBatch (flipsAt flips dist) newPlayer))
    dists.

(** ** Notions for the turns *)

(** The supplies, the turn and the modal of a reachable world: White
    moves when the supplies are equal, Black when Black has one tile
    more; during an animation the player who placed is still the current
    one; the modal is shown exactly when the game is over, with the
    counts of the board. *)
Definition turnOk (w : World) : Prop :=
  let gs := gameState w in
  let wr := whiteTilesRemaining gs in
  let br := blackTilesRemaining gs in
  0 <= wr <= TILES_PER_PLAYER ∧ 0 <= br <= TILES_PER_PLAYER ∧
  if gameOver gs then
    wr = 0 ∧ br = 0 ∧ isAnimating gs = false ∧
    modal w =
      Some (mkModal (outcomeOf (countTiles (tiles gs)))
              (countTiles (tiles gs)))
  else
    modal w = None ∧
    if isAnimating gs then
      match currentPlayer gs with
      | WHITE => br = wr + 1
      | BLACK => wr = br
      end
    else
      match currentPlayer gs with
      | WHITE => wr = br ∧ 0 < wr
      | BLACK => br = wr + 1
      end.

(** ** The immediate resolution of surrounded tiles

    [processSurroundedTiles] is the variant of the surround rule that
    writes the board at once instead of returning a flip list; the board
    is threaded through its second loop, so that the straight lines of a
    surrounded tile are read from the board as the earlier iterations
    left it.  The function returns the board and its boolean result. *)

Definition processSurroundedTiles (t : Tiles) (attackingPlayer : Player)
  : Tiles * bool :=
  let defendingPlayer := other attackingPlayer in
  let attackerZOC := calculateZOC t attackingPlayer in
  let defendingTiles := getPlayerTiles t defendingPlayer in
  let surroundedTiles :=
    filter
      (fun tile => isTileSurrounded (fst tile) (snd tile) attackerZOC = true)
      defendingTiles in
  let t' :=
    foldl
      (fun t surrounded =>
         let linesTiles :=
           getTilesInStraightLines t (fst surrounded) (snd surrounded)
             defendingPlayer in
         let t :=
           JsMap.set t (hexKey (fst surrounded) (snd surrounded))
             attackingPlayer in
         flipTiles t linesTiles attackingPlayer)
      t surroundedTiles in
  (t', (0 <? length surroundedTiles)%nat).

(** One iteration of the second loop of [processSurroundedTiles]. *)
Definition processStep (p : Player) (s : Tiles) (surrounded : Hex) : Tiles :=
  flipTiles
    (JsMap.set s (hexKey (fst surrounded) (snd surrounded)) p)
    (getTilesInStraightLines s (fst surrounded) (snd surrounded) (other p))
    p.

(** A board [s] that differs from [t] only by tiles of the defender
    turned into tiles of the attacker [p]. *)
Definition onlyFlipped (t : Tiles) (p : Player) (s : Tiles) : Prop :=
  ∀ c, JsMap.get s c = JsMap.get t c ∨
       (JsMap.get t c = Some (other p) ∧ JsMap.get s c = Some p).

(** A small position with a surrounded tile: the black tile in the
    corner [(7, -7)] of the board, whose three neighbours on the board
    are [(6, -7)], [(6, -6)] and [(7, -6)], next to two white tiles. *)
Definition cornerBoard : Tiles :=
  JsMap.set
    (JsMap.set (JsMap.set [] (hexKey 7 (-7)) BLACK) (hexKey 6 (-7)) WHITE)
    (hexKey 7 (-6)) WHITE.

(** ** The play and the pointer *)

(** The events that play the game; the others move the pointer or
    toggle the debug display. *)
Definition isPlayEvent (e : Event) : bool :=
  match e with
  | Click _ _ _ | TimerFires => true
  | MouseMove _ | MouseLeave | ToggleDebug => false
  end.

(** A world without what the pointer and the debug button write:
    [hoveredHex] and [debugMode]. *)
Definition playView (w : World) : World :=
  mkWorld (with_debugMode (with_hoveredHex (gameState w) None) false)
    (timers w) (modal w).

(** ** Facts about [JsMap] *)

Module JsMapFacts.
Section JsMapFacts.
Context {K V : Type} `{EqDecision K}.
Implicit Types (m : JsMap.t K V) (k : K) (v : V).

Lemma get_set_eq m k v : JsMap.get (JsMap.set m k v) k = Some v.
Proof.
  induction m as [|[k' v'] m IH]; simpl.
  - by rewrite decide_True.
  - destruct (decide (k' = k)) as [->|Hne]; simpl.
    + by rewrite decide_True.
    + by rewrite decide_False.
Qed.

Lemma get_set_ne m k k' v :
  k ≠ k' → JsMap.get (JsMap.set m k v) k' = JsMap.get m k'.
Proof.
  intros Hne. induction m as [|[k0 v0] m IH]; simpl.
  - by rewrite decide_False.
  - destruct (decide (k0 = k)) as [->|Hne0]; simpl.
    + by rewrite !decide_False.
    + by rewrite IH.
Qed.

Lemma get_set m k k' v :
  JsMap.get (JsMap.set m k v) k' =
  if decide (k = k') then Some v else JsMap.get m k'.
Proof.
  destruct (decide (k = k')) as [->|Hne].
  - apply get_set_eq.
  - by apply get_set_ne.
Qed.

Lemma has_true m k : JsMap.has m k = true ↔ k ∈ JsMap.keys m.
Proof.
  unfold JsMap.has, JsMap.keys. induction m as [|[k' v'] m IH]; simpl.
  - split; [done | by intros ?%elem_of_nil].
  - destruct (decide (k' = k)) as [->|Hne].
    + split; [intros _; left | done].
    + rewrite IH. split; [by right | ].
      intros [?|?]%elem_of_cons; [congruence | done].
Qed.

Lemma has_false m k : JsMap.has m k = false ↔ k ∉ JsMap.keys m.
Proof.
  rewrite <- has_true. by destruct (JsMap.has m k).
Qed.

Lemma get_None m k : JsMap.get m k = None ↔ k ∉ JsMap.keys m.
Proof.
  rewrite <- has_false. unfold JsMap.has.
  destruct (JsMap.get m k); split; done.
Qed.

Lemma get_is_Some m k : is_Some (JsMap.get m k) ↔ k ∈ JsMap.keys m.
Proof.
  rewrite <- has_true. unfold JsMap.has.
  destruct (JsMap.get m k); split; intros Hx; eauto; try done.
Qed.

Lemma get_Some_elem m k v : JsMap.get m k = Some v → (k, v) ∈ m.
Proof.
  induction m as [|[k' v'] m IH]; simpl; [done|].
  destruct (decide (k' = k)) as [->|Hne].
  - intros [= ->]. left.
  - intros ?. right. by apply IH.
Qed.

Lemma elem_get_Some m k v :
  NoDup (JsMap.keys m) → (k, v) ∈ m → JsMap.get m k = Some v.
Proof.
  unfold JsMap.keys. induction m as [|[k' v'] m IH]; simpl.
  - by intros _ ?%elem_of_nil.
  - intros [Hnotin Hnd]%NoDup_cons [Heq|Hin]%elem_of_cons.
    + injection Heq as -> ->. by rewrite decide_True.
    + destruct (decide (k' = k)) as [->|Hne]; [|by apply IH].
      exfalso. apply Hnotin. apply list_elem_of_fmap. by exists (k, v).
Qed.

(** Overwriting a key that is present keeps the keys and their order. *)
Lemma keys_set_present m k v :
  k ∈ JsMap.keys m → JsMap.keys (JsMap.set m k v) = JsMap.keys m.
Proof.
  unfold JsMap.keys. induction m as [|[k' v'] m IH]; simpl.
  - by intros ?%elem_of_nil.
  - destruct (decide (k' = k)) as [->|Hne]; simpl; [done|].
    intros [?|?]%elem_of_cons; [congruence|]. by rewrite IH.
Qed.

(** Setting a new key appends it. *)
Lemma keys_set_absent m k v :
  k ∉ JsMap.keys m → JsMap.keys (JsMap.set m k v) = JsMap.keys m ++ [k].
Proof.
  unfold JsMap.keys. induction m as [|[k' v'] m IH]; simpl; [done|].
  intros Hnotin. apply not_elem_of_cons in Hnotin as [Hne Hnotin].
  rewrite decide_False by done. simpl. by rewrite IH.
Qed.

Lemma values_set_absent m k v :
  k ∉ JsMap.keys m → JsMap.values (JsMap.set m k v) = JsMap.values m ++ [v].
Proof.
  unfold JsMap.keys, JsMap.values.
  induction m as [|[k' v'] m IH]; simpl; [done|].
  intros Hnotin. apply not_elem_of_cons in Hnotin as [Hne Hnotin].
  rewrite decide_False by done. simpl. by rewrite IH.
Qed.

Lemma set_absent m k v :
  k ∉ JsMap.keys m → JsMap.set m k v = m ++ [(k, v)].
Proof.
  unfold JsMap.keys. induction m as [|[k' v'] m IH]; simpl; [done|].
  intros Hnotin. apply not_elem_of_cons in Hnotin as [Hne Hnotin].
  rewrite decide_False by done. by rewrite IH.
Qed.

Lemma NoDup_keys_set m k v :
  NoDup (JsMap.keys m) → NoDup (JsMap.keys (JsMap.set m k v)).
Proof.
  intros Hnd. destruct (decide (k ∈ JsMap.keys m)) as [Hin|Hnotin].
  - by rewrite keys_set_present.
  - rewrite keys_set_absent by done.
    apply NoDup_app. split_and!; [done | | apply NoDup_singleton].
    intros x Hx ->%list_elem_of_singleton. done.
Qed.

Lemma length_set_present m k v :
  k ∈ JsMap.keys m → length (JsMap.set m k v) = length m.
Proof.
  intros Hin. pose proof (keys_set_present m k v Hin) as Hk.
  apply (f_equal length) in Hk. unfold JsMap.keys in Hk.
  by rewrite !length_map in Hk.
Qed.

Lemma length_set_absent m k v :
  k ∉ JsMap.keys m → length (JsMap.set m k v) = S (length m).
Proof.
  intros Hnotin. rewrite set_absent by done.
  rewrite length_app. simpl. lia.
Qed.

End JsMapFacts.
End JsMapFacts.

(** ** Rounding on integer inputs *)

Module RoundFacts.
Import Round.

Lemma Math_round_inject (q : Z) : Math_round (inject_Z q) = q.
Proof.
  unfold Math_round, Qfloor. simpl.
  symmetry. apply Z.div_unique with (r := 1); lia.
Qed.

(** The rounding error of an integer is zero, so it exceeds no other
    rounding error. *)
Lemma gt_diff_integer (q : Z) (y : Q) :
  gt (Qabs (inject_Z (Math_round (inject_Z q)) - inject_Z q)) (Qabs y)
  = false.
Proof.
  unfold gt. rewrite Math_round_inject.
  apply negb_false_iff, Qle_bool_iff.
  apply Qle_trans with 0%Q; [|apply Qabs_nonneg].
  unfold Qle, Qabs, Qminus, Qplus, Qopp, inject_Z. simpl. lia.
Qed.

Lemma hexRound_inject (q r : Z) :
  hexRound (inject_Z q) (inject_Z r) = (q, r).
Proof.
  unfold hexRound.
  rewrite (gt_diff_integer q (inject_Z (Math_round (inject_Z r)) - inject_Z r)).
  rewrite (gt_diff_integer r). simpl.
  by rewrite !Math_round_inject.
Qed.

End RoundFacts.

(** C8. [hexRound] leaves a pair of exact integers unchanged; hence it is
    idempotent (the result of any call is a pair of integers, which a
    second call returns as it is), and its result [(q', r')] with the
    derived third component [- q' - r'] sums to zero. *)
Theorem hexRound_exact_on_integers :
  (∀ q r : Z, Round.hexRound (inject_Z q) (inject_Z r) = (q, r)) ∧
  (∀ x y : Q,
     let '(q', r') := Round.hexRound x y in
     Round.hexRound (inject_Z q') (inject_Z r') = (q', r') ∧
     q' + r' + (- q' - r') = 0).
Proof.
  split.
  - apply RoundFacts.hexRound_inject.
  - intros x y. destruct (Round.hexRound x y) as [q' r'].
    split; [apply RoundFacts.hexRound_inject | lia].
Qed.

(** ** The surround test *)

Lemma surroundedLoop_true (l : list Hex) (zoc : gset Hex) :
  surroundedLoop l zoc = true ↔
  ∀ hex, hex ∈ l → isValidHex (fst hex) (snd hex) = false ∨ hex ∈ zoc.
Proof.
  induction l as [|h l IH]; simpl.
  - split; [|done]. by intros _ hex ?%elem_of_nil.
  - destruct (isValidHex (fst h) (snd h)) eqn:Hv; simpl.
    + destruct (bool_decide (h ∈ zoc)) eqn:Hz; simpl.
      * apply bool_decide_eq_true in Hz. rewrite IH. split.
        -- intros Hall hex [->|?]%elem_of_cons; [by right | by apply Hall].
        -- intros Hall hex ?. apply Hall. by right.
      * apply bool_decide_eq_false in Hz. split; [done|].
        intros Hall. destruct (Hall h) as [?|?]; [left | congruence | done].
    + rewrite IH. split.
      * intros Hall hex [->|?]%elem_of_cons; [by left | by apply Hall].
      * intros Hall hex ?. apply Hall. by right.
Qed.

Lemma elem_of_getSurroundingHexes (q r : Z) (hex : Hex) :
  hex ∈ getSurroundingHexes q r ↔
  ∃ d, d ∈ directions ∧ hex = (q + fst d, r + snd d).
Proof.
  unfold getSurroundingHexes. rewrite list_elem_of_fmap.
  split; intros (d & H1 & H2); eauto.
Qed.

(** C4. [isTileSurrounded q r enemyZOC] is true exactly when each of the
    six surrounding coordinates is off the board or a member of
    [enemyZOC]; a cell without a valid neighbour is surrounded whatever
    the zone is. *)
Theorem isTileSurrounded_iff (q r : Z) (enemyZOC : gset Hex) :
  (isTileSurrounded q r enemyZOC = true ↔
   ∀ d, d ∈ directions →
     isValidHex (q + fst d) (r + snd d) = false ∨
     (q + fst d, r + snd d) ∈ enemyZOC) ∧
  (getNeighbors q r = [] → isTileSurrounded q r enemyZOC = true).
Proof.
  assert (Hiff : isTileSurrounded q r enemyZOC = true ↔
    ∀ d, d ∈ directions →
      isValidHex (q + fst d) (r + snd d) = false ∨
      (q + fst d, r + snd d) ∈ enemyZOC).
  { unfold isTileSurrounded. rewrite surroundedLoop_true. split.
    - intros Hall d Hd.
      apply (Hall (q + fst d, r + snd d)).
      apply elem_of_getSurroundingHexes. eauto.
    - intros Hall hex (d & Hd & ->)%elem_of_getSurroundingHexes.
      by apply Hall. }
  split; [exact Hiff|].
  intros Hnone. apply Hiff. intros d Hd. left.
  destruct (isValidHex (q + fst d) (r + snd d)) eqn:Hv; [|done].
  assert (Hin : (q + fst d, r + snd d) ∈ getNeighbors q r).
  { unfold getNeighbors. apply list_elem_of_filter. split; [done|].
    apply elem_of_getSurroundingHexes. eauto. }
  rewrite Hnone in Hin. by apply elem_of_nil in Hin.
Qed.

(** A cell far from the board has no valid neighbour. *)
Lemma isTileSurrounded_iff_witness :
  getNeighbors 20 20 = [] ∧ isTileSurrounded 20 20 ∅ = true.
Proof.
  split; [reflexivity|].
  apply (isTileSurrounded_iff 20 20 ∅). reflexivity.
Defined.

(** ** Placement requests *)

Lemma gameState_animateFlips (w : World) (flips : list Flip) (p : Player) :
  gameState (animateFlips w flips p) = with_isAnimating (gameState w) true.
Proof.
  unfold animateFlips.
  by destruct (scheduleBatches _ _ _ _) as [batches d].
Qed.

Lemma gameState_finishTurn (w : World) :
  let gs := gameState w in
  gameState (finishTurn w) =
  if (whiteTilesRemaining gs =? 0) && (blackTilesRemaining gs =? 0)
  then with_gameOver gs true
  else with_currentPlayer gs (other (currentPlayer gs)).
Proof.
  unfold finishTurn. simpl.
  by destruct ((whiteTilesRemaining _ =? 0) && (blackTilesRemaining _ =? 0)).
Qed.

Lemma tiles_finishTurn (w : World) :
  tiles (gameState (finishTurn w)) = tiles (gameState w).
Proof.
  rewrite gameState_finishTurn. simpl.
  by destruct ((whiteTilesRemaining _ =? 0) && (blackTilesRemaining _ =? 0)).
Qed.

Lemma remaining_finishTurn (w : World) (p : Player) :
  remaining (gameState (finishTurn w)) p = remaining (gameState w) p.
Proof.
  rewrite gameState_finishTurn. simpl.
  by destruct ((whiteTilesRemaining _ =? 0) && (blackTilesRemaining _ =? 0)),
    p.
Qed.

Lemma placeTile_rejected (w : World) (q r now : Z) :
  rejected w q r → placeTile w q r now = (false, w).
Proof.
  unfold rejected, placeTile, remaining.
  intros [Hr|[Hr|[Hr|[Hr|Hr]]]].
  - by rewrite Hr.
  - rewrite Hr. by rewrite orb_true_r.
  - rewrite Hr. simpl. by destruct (gameOver _ || isAnimating _).
  - rewrite Hr. rewrite orb_true_r. by destruct (gameOver _ || isAnimating _).
  - destruct (gameOver _ || isAnimating _); [done|].
    destruct (negb _ || _); [done|].
    destruct (currentPlayer (gameState w)); simpl.
    + by rewrite (proj2 (Z.leb_le _ _) Hr).
    + by rewrite (proj2 (Z.leb_le _ _) Hr).
Qed.

(** The guard of [handleClick] repeats the first guard of [placeTile]. *)
Lemma handleClick_placeTile (w : World) (q r now : Z) :
  handleClick w q r now = snd (placeTile w q r now).
Proof.
  unfold handleClick. destruct (gameOver (gameState w)) eqn:Hgo; [|done].
  rewrite placeTile_rejected; [done | by left].
Qed.

Lemma placeTile_accepted (w : World) (q r now : Z) :
  ¬ rejected w q r →
  placeTile w q r now =
  (true,
   let p := currentPlayer (gameState w) in
   let w' := mkWorld (putTile (gameState w) q r now) (timers w) (modal w) in
   let allFlips := captureSet (tiles (gameState w)) q r p in
   if (0 <? length allFlips)%nat then animateFlips w' allFlips p
   else finishTurn w').
Proof.
  destruct w as [[p t wr br hh lp lt go dm af an] ts md].
  unfold rejected, placeTile, remaining, captureSet, putTile. simpl.
  intros Hnr.
  destruct go; [tauto|]. destruct an; [tauto|].
  destruct (isValidHex q r); [|tauto].
  destruct (JsMap.has t (hexKey q r)); [tauto|].
  simpl. destruct p; simpl.
  - destruct (wr <=? 0) eqn:Hw.
    { apply Z.leb_le in Hw. tauto. }
    by destruct (0 <? length _)%nat.
  - destruct (br <=? 0) eqn:Hb.
    { apply Z.leb_le in Hb. tauto. }
    by destruct (0 <? length _)%nat.
Qed.

(** The board and the supplies right after an accepted request. *)
Lemma placeTile_accepted_state (w : World) (q r now : Z) :
  ¬ rejected w q r →
  let p := currentPlayer (gameState w) in
  let gs' := gameState (snd (placeTile w q r now)) in
  tiles gs' = JsMap.set (tiles (gameState w)) (hexKey q r) p ∧
  remaining gs' p = remaining (gameState w) p - 1 ∧
  remaining gs' (other p) = remaining (gameState w) (other p).
Proof.
  intros Hnr. rewrite placeTile_accepted by done. simpl.
  destruct (0 <? length _)%nat.
  - rewrite gameState_animateFlips. unfold remaining, putTile. simpl.
    by destruct (currentPlayer (gameState w)).
  - rewrite tiles_finishTurn, !remaining_finishTurn.
    unfold remaining, putTile. simpl.
    by destruct (currentPlayer (gameState w)).
Qed.



(** ** Geometry of the board *)

Lemma isValidHex_bounds (q r : Z) :
  isValidHex q r = true ↔
  -7 <= q <= 7 ∧ -7 <= r <= 7 ∧ -7 <= q + r <= 7.
Proof.
  unfold isValidHex, GRID_SIZE.
  rewrite !andb_true_iff, !Z.ltb_lt. lia.
Qed.

Lemma elem_of_directions (d : Hex) :
  d ∈ directions ↔
  d = (1, 0) ∨ d = (1, -1) ∨ d = (0, -1) ∨ d = (-1, 0) ∨ d = (-1, 1) ∨
  d = (0, 1).
Proof.
  unfold directions. rewrite !elem_of_cons, elem_of_nil. tauto.
Qed.

Lemma toEdge_step (d : Hex) (q r : Z) :
  d ∈ directions → toEdge d (q + fst d) (r + snd d) = toEdge d q r - 1.
Proof. intros Hd. each_direction Hd; unfold toEdge; simpl; lia. Qed.

Lemma toEdge_valid (d : Hex) (q r : Z) :
  d ∈ directions → isValidHex q r = true → 1 <= toEdge d q r <= 15.
Proof.
  intros Hd Hv%isValidHex_bounds.
  each_direction Hd; unfold toEdge, GRID_SIZE; simpl; lia.
Qed.

Lemma ray_step (q r : Z) (d : Hex) (k : Z) :
  ray q r d (k + 1) = (fst (ray q r d k) + fst d, snd (ray q r d k) + snd d).
Proof. unfold ray. simpl. f_equal; lia. Qed.

(** Two rays from the same cell meet only at the same distance along the
    same direction. *)
Lemma ray_inj (q r : Z) (d1 d2 : Hex) (k1 k2 : Z) :
  d1 ∈ directions → d2 ∈ directions → 1 <= k1 → 1 <= k2 →
  ray q r d1 k1 = ray q r d2 k2 → d1 = d2 ∧ k1 = k2.
Proof.
  intros H1 H2 Hk1 Hk2. unfold ray.
  each_direction H1; each_direction H2; simpl; intros [= Ha Hb];
    first [ split; [reflexivity | lia] | exfalso; lia ].
Qed.

(** ** The scans terminate *)

Section Scans.
Variables (t : Tiles) (p : Player) (d : Hex).
Hypothesis Hd : d ∈ directions.

Lemma othelloLine_enough (fuel : nat) (q r dist : Z) (acc : list Flip) :
  (0 < fuel)%nat →
  (isValidHex q r = true → toEdge d q r < Z.of_nat fuel) →
  is_Some (othelloLine fuel t p d q r dist acc).
Proof.
  revert q r dist acc. induction fuel as [|fuel IH]; intros q r dist acc Hpos Hfuel.
  - lia.
  - simpl. destruct (isValidHex q r) eqn:Hv; [|by eexists].
    specialize (Hfuel eq_refl).
    pose proof (toEdge_valid d q r Hd Hv) as Hrange.
    destruct (decide (_ = Some (other p))); [|].
    + apply IH; [lia|]. intros _. rewrite toEdge_step by done. lia.
    + destruct (decide (_ = Some p)); by eexists.
Qed.

Lemma othelloLine_more (fuel fuel' : nat) (q r dist : Z)
  (acc l : list Flip) :
  othelloLine fuel t p d q r dist acc = Some l → (fuel <= fuel')%nat →
  othelloLine fuel' t p d q r dist acc = Some l.
Proof.
  revert fuel' q r dist acc.
  induction fuel as [|fuel IH]; intros fuel' q r dist acc; [done|].
  destruct fuel' as [|fuel']; [lia|]. simpl.
  destruct (isValidHex q r); [|done].
  destruct (decide (_ = Some (other p))); [|done].
  intros Hl Hle. apply IH; [done | lia].
Qed.

Lemma straightLine_enough (fuel : nat) (q r : Z) (acc : list Hex) :
  (0 < fuel)%nat →
  (isValidHex q r = true → toEdge d q r < Z.of_nat fuel) →
  is_Some (straightLine fuel t p d q r acc).
Proof.
  revert q r acc. induction fuel as [|fuel IH]; intros q r acc Hpos Hfuel.
  - lia.
  - simpl. destruct (isValidHex q r) eqn:Hv; [|by eexists].
    specialize (Hfuel eq_refl).
    pose proof (toEdge_valid d q r Hd Hv) as Hrange.
    destruct (decide (_ = Some p)); [|by eexists].
    apply IH; [lia|]. intros _. rewrite toEdge_step by done. lia.
Qed.

Lemma straightLine_more (fuel fuel' : nat) (q r : Z) (acc l : list Hex) :
  straightLine fuel t p d q r acc = Some l → (fuel <= fuel')%nat →
  straightLine fuel' t p d q r acc = Some l.
Proof.
  revert fuel' q r acc.
  induction fuel as [|fuel IH]; intros fuel' q r acc; [done|].
  destruct fuel' as [|fuel']; [lia|]. simpl.
  destruct (isValidHex q r); [|done].
  destruct (decide (_ = Some p)); [|done].
  intros Hl Hle. apply IH; [done | lia].
Qed.

(** Whatever the starting cell, [scanFuel] iterations are enough, and
    more fuel gives the same flips. *)
Lemma othelloLine_total (q r dist : Z) (acc : list Flip) :
  ∃ l, ∀ fuel, (scanFuel <= fuel)%nat →
    othelloLine fuel t p d q r dist acc = Some l.
Proof.
  destruct (othelloLine_enough scanFuel q r dist acc) as [l Hl].
  - unfold scanFuel, GRID_SIZE. lia.
  - intros Hv. pose proof (toEdge_valid d q r Hd Hv).
    unfold scanFuel, GRID_SIZE. lia.
  - exists l. intros fuel Hfuel. by apply othelloLine_more with scanFuel.
Qed.

Lemma straightLine_total (q r : Z) (acc : list Hex) :
  ∃ l, ∀ fuel, (scanFuel <= fuel)%nat →
    straightLine fuel t p d q r acc = Some l.
Proof.
  destruct (straightLine_enough scanFuel q r acc) as [l Hl].
  - unfold scanFuel, GRID_SIZE. lia.
  - intros Hv. pose proof (toEdge_valid d q r Hd Hv).
    unfold scanFuel, GRID_SIZE. lia.
  - exists l. intros fuel Hfuel. by apply straightLine_more with scanFuel.
Qed.

End Scans.

(** ** The line-capture rule *)

Lemma foldl_app_concat {A B : Type} (f : A → list B) (l : list A)
  (acc : list B) :
  foldl (fun acc x => acc ++ f x) acc l = acc ++ concat (map f l).
Proof.
  revert acc. induction l as [|x l IH]; intros acc; simpl.
  - by rewrite app_nil_r.
  - by rewrite IH, app_assoc.
Qed.

Lemma getOthelloFlips_directions (t : Tiles) (q r : Z) (p : Player) :
  getOthelloFlips t q r p = concat (map (lineCapture t q r p) directions).
Proof.
  unfold getOthelloFlips.
  by rewrite (foldl_app_concat (lineCapture t q r p)).
Qed.

Section LineCapture.
Variables (t : Tiles) (q r : Z) (p : Player) (d : Hex).
Hypothesis Hd : d ∈ directions.

Lemma othelloLine_at_ray (fuel : nat) (k : nat) (acc : list Flip) :
  othelloLine (S fuel) t p d (fst (ray q r d k)) (snd (ray q r d k)) k acc =
  if decide (opponentAt t p (ray q r d k)) then
    othelloLine fuel t p d (fst (ray q r d (S k))) (snd (ray q r d (S k)))
      (S k) (acc ++ [flipAt q r d k])
  else if decide (ownAt t p (ray q r d k)) then Some acc
  else Some [].
Proof.
  replace (Z.of_nat (S k)) with (Z.of_nat k + 1) by lia.
  rewrite ray_step. cbn [othelloLine]. cbv zeta. unfold hexKey, flipAt.
  rewrite <- surjective_pairing.
  destruct (decide (opponentAt t p (ray q r d k))) as [[Hv Ho]|Hno].
  - unfold validHex in Hv. rewrite Hv. by rewrite decide_True.
  - destruct (decide (ownAt t p (ray q r d k))) as [[Hv Hp]|Hnp].
    + unfold validHex in Hv. rewrite Hv. rewrite decide_False.
      * by rewrite decide_True.
      * rewrite Hp. intros [= Heq]. by destruct p.
    + destruct (isValidHex _ _) eqn:Hv; [|done].
      rewrite !decide_False; [done | |]; intros ?;
        [apply Hnp | apply Hno]; by split.
Qed.

(** A run of [n] opponent cells from step [k] on, then a cell that is not
    the opponent's. *)
Lemma othelloLine_run (n : nat) :
  ∀ (fuel k : nat) (acc : list Flip),
  (∀ j : nat, (k <= j < k + n)%nat → opponentAt t p (ray q r d j)) →
  ¬ opponentAt t p (ray q r d (k + n)%nat) →
  (n < fuel)%nat →
  othelloLine fuel t p d (fst (ray q r d k)) (snd (ray q r d k)) k acc =
  Some (if decide (ownAt t p (ray q r d (k + n)%nat))
        then acc ++ rayFlipsFrom q r d k n else []).
Proof.
  induction n as [|n IH]; intros fuel k acc Hrun Hstop Hfuel.
  - destruct fuel as [|fuel]; [lia|].
    rewrite othelloLine_at_ray. rewrite Nat.add_0_r in *.
    rewrite decide_False by done.
    unfold rayFlipsFrom. simpl. rewrite app_nil_r.
    by destruct (decide _).
  - destruct fuel as [|fuel]; [lia|].
    rewrite othelloLine_at_ray.
    rewrite decide_True by (apply Hrun; lia).
    rewrite IH.
    + replace (S k + n)%nat with (k + S n)%nat by lia.
      destruct (decide _); [|done].
      unfold rayFlipsFrom. simpl. by rewrite <- app_assoc.
    + intros j Hj. apply Hrun. lia.
    + by replace (S k + n)%nat with (k + S n)%nat by lia.
    + lia.
Qed.

(** Every flip of a scan is a cell of the ray with its distance, and is
    owned by the opponent. *)
Lemma othelloLine_flips (fuel : nat) :
  ∀ (k : nat) (acc l : list Flip),
  othelloLine fuel t p d (fst (ray q r d k)) (snd (ray q r d k)) k acc
  = Some l →
  ∀ flip, flip ∈ l →
    flip ∈ acc ∨
    ∃ j : nat, (k <= j)%nat ∧ flip = flipAt q r d j ∧
      opponentAt t p (ray q r d j).
Proof.
  induction fuel as [|fuel IH]; intros k acc l; [done|].
  rewrite othelloLine_at_ray.
  destruct (decide (opponentAt t p (ray q r d k))) as [Ho|Ho].
  - intros Hl flip Hflip.
    destruct (IH _ _ _ Hl flip Hflip) as [Hin|(j & Hj & -> & Hopp)].
    + apply elem_of_app in Hin as [? | ->%list_elem_of_singleton];
        [by left | right].
      exists k. split_and!; [lia | done | done].
    + right. exists j. split_and!; [lia | done | done].
  - destruct (decide _); intros [= <-] flip Hflip; [by left|].
    by apply elem_of_nil in Hflip.
Qed.

Lemma lineCapture_flips (flip : Flip) :
  flip ∈ lineCapture t q r p d →
  ∃ j : nat, (1 <= j)%nat ∧ flip = flipAt q r d j ∧
    opponentAt t p (ray q r d j).
Proof.
  unfold lineCapture.
  destruct (othelloLine _ _ _ _ _ _ _ _) as [l|] eqn:Hl; simpl;
    [|by intros ?%elem_of_nil].
  intros Hflip.
  assert (Hray : (q + fst d, r + snd d) = ray q r d 1%nat).
  { unfold ray. f_equal; lia. }
  pose proof (othelloLine_flips scanFuel 1 [] l) as Hfl.
  rewrite <- Hray in Hfl. simpl in Hfl.
  destruct (Hfl Hl flip Hflip) as [Hin|Hj]; [|done].
  by apply elem_of_nil in Hin.
Qed.

Lemma lineCapture_total :
  ∀ fuel, (scanFuel <= fuel)%nat →
    othelloLine fuel t p d (q + fst d) (r + snd d) 1 []
    = Some (lineCapture t q r p d).
Proof.
  destruct (othelloLine_total t p d Hd (q + fst d) (r + snd d) 1 [])
    as [l Hl].
  intros fuel Hfuel. unfold lineCapture.
  rewrite (Hl scanFuel) by done. simpl. by apply Hl.
Qed.

Lemma lineCapture_of_run (n : nat) :
  (∀ k : nat, (1 <= k <= n)%nat → opponentAt t p (ray q r d k)) →
  ¬ opponentAt t p (ray q r d (S n)) →
  lineCapture t q r p d =
  if decide (ownAt t p (ray q r d (S n))) then rayFlips q r d n else [].
Proof.
  intros Hrun Hstop.
  assert (Hn := othelloLine_run n (S n + scanFuel) 1 []).
  assert (Hray : ray q r d 1%nat = (q + fst d, r + snd d)).
  { unfold ray. f_equal; lia. }
  rewrite Hray in Hn.
  specialize (Hn ltac:(intros j Hj; apply Hrun; lia) Hstop ltac:(lia)).
  cbn [fst snd] in Hn. change (Z.of_nat 1) with 1 in Hn.
  rewrite lineCapture_total in Hn by lia.
  unfold rayFlips. by injection Hn.
Qed.

End LineCapture.

(** C3. In each direction the line-capture rule takes the run of
    consecutive opponent cells that starts next to the placed cell: when
    the run of [n] cells is followed by a cell of the placing player, the
    direction captures exactly these [n] cells (with their distances
    [1..n]); when it is followed by an empty cell or by the edge of the
    board, the direction captures nothing.  The scan ends within
    [scanFuel] iterations, and the flips of a placement are the flips of
    the six directions, each computed on its own. *)
Theorem lineCapture_per_direction (t : Tiles) (q r : Z) (p : Player)
  (d : Hex) (n : nat) :
  d ∈ directions →
  (∀ k : nat, (1 <= k <= n)%nat → opponentAt t p (ray q r d k)) →
  ¬ opponentAt t p (ray q r d (S n)) →
  lineCapture t q r p d =
    (if decide (ownAt t p (ray q r d (S n))) then rayFlips q r d n else []) ∧
  (∀ fuel, (scanFuel <= fuel)%nat →
     othelloLine fuel t p d (q + fst d) (r + snd d) 1 []
     = Some (lineCapture t q r p d)) ∧
  getOthelloFlips t q r p = concat (map (lineCapture t q r p) directions).
Proof.
  intros Hd Hrun Hstop. split_and!.
  - by apply lineCapture_of_run.
  - by apply lineCapture_total.
  - apply getOthelloFlips_directions.
Qed.

(** ** Merging the flips *)

Lemma entryOf_nil (c : Hex) : entryOf c [] = None.
Proof. done. Qed.

Lemma entryOf_cons (c : Hex) (flip : Flip) (flips : list Flip) :
  entryOf c (flip :: flips) =
  if decide (flipKey flip = c) then Some flip else entryOf c flips.
Proof.
  unfold entryOf. simpl. destruct (decide (flipKey flip = c)); [done|].
  by destruct (list_find _ flips) as [[i f]|].
Qed.

Lemma entryOf_Some (c : Hex) (flips : list Flip) (f : Flip) :
  entryOf c flips = Some f → f ∈ flips ∧ flipKey f = c.
Proof.
  induction flips as [|g flips IH]; [done|]. rewrite entryOf_cons.
  destruct (decide (flipKey g = c)) as [Hg|Hg].
  - intros [= <-]. split; [left | done].
  - intros [? ?]%IH. split; [by right | done].
Qed.

Lemma entryOf_None (c : Hex) (flips : list Flip) :
  entryOf c flips = None ↔ ∀ f, f ∈ flips → flipKey f ≠ c.
Proof.
  induction flips as [|g flips IH].
  - split; [|done]. by intros _ f ?%elem_of_nil.
  - rewrite entryOf_cons. destruct (decide (flipKey g = c)) as [Hg|Hg].
    + split; [done|]. intros Hall. destruct (Hall g); [left | done].
    + rewrite IH. split.
      * intros Hall f [->|?]%elem_of_cons; [done | by apply Hall].
      * intros Hall f ?. apply Hall. by right.
Qed.

Lemma entryOf_app (c : Hex) (l1 l2 : list Flip) :
  entryOf c (l1 ++ l2) =
  match entryOf c l1 with Some f => Some f | None => entryOf c l2 end.
Proof.
  induction l1 as [|g l1 IH]; [done|]. simpl. rewrite !entryOf_cons.
  by destruct (decide (flipKey g = c)).
Qed.

Lemma keyed_set (m : JsMap.t Hex Flip) (flip : Flip) :
  keyed m → flipKey flip ∉ JsMap.keys m →
  keyed (JsMap.set m (flipKey flip) flip).
Proof.
  intros Hk Hnotin. rewrite JsMapFacts.set_absent by done.
  apply Forall_app. split; [done|]. by apply Forall_singleton.
Qed.

Lemma keyed_keys (m : JsMap.t Hex Flip) :
  keyed m → map flipKey (JsMap.values m) = JsMap.keys m.
Proof.
  unfold keyed, JsMap.values, JsMap.keys.
  induction 1 as [|[k f] m Hkf _ IH]; simpl in *; [done|].
  by rewrite Hkf, IH.
Qed.

Lemma keyed_entryOf (m : JsMap.t Hex Flip) (c : Hex) :
  keyed m → entryOf c (JsMap.values m) = JsMap.get m c.
Proof.
  unfold keyed, JsMap.values.
  induction 1 as [|[k f] m Hkf _ IH]; simpl in *; [done|].
  rewrite entryOf_cons, Hkf, IH. by destruct (decide (k = c)).
Qed.

Section MergeStep.
Variable g : Flip → Flip.
Hypothesis g_key : ∀ flip, flipKey (g flip) = flipKey flip.

Lemma addFlips_spec (flips : list Flip) :
  ∀ m : JsMap.t Hex Flip,
  keyed m → NoDup (JsMap.keys m) →
  keyed (addFlips g m flips) ∧ NoDup (JsMap.keys (addFlips g m flips)) ∧
  ∀ c, JsMap.get (addFlips g m flips) c =
       match JsMap.get m c with
       | Some f => Some f
       | None => g <$> entryOf c flips
       end.
Proof.
  unfold addFlips.
  induction flips as [|flip flips IH]; intros m Hk Hnd; simpl.
  - split_and!; [done | done |]. intros c. by destruct (JsMap.get m c).
  - destruct (JsMap.has m (flipKey flip)) eqn:Hhas; simpl.
    + destruct (IH m Hk Hnd) as (Hk' & Hnd' & Hget).
      split_and!; [done | done |]. intros c. rewrite Hget.
      destruct (JsMap.get m c) eqn:Hc; [done|].
      rewrite entryOf_cons. rewrite decide_False; [done|].
      intros <-. apply JsMapFacts.has_true, JsMapFacts.get_is_Some in Hhas.
      rewrite Hc in Hhas. by destruct Hhas.
    + apply JsMapFacts.has_false in Hhas.
      destruct (IH (JsMap.set m (flipKey flip) (g flip))) as (Hk' & Hnd' & Hget).
      { rewrite <- (g_key flip). apply keyed_set; [done|]. by rewrite g_key. }
      { by apply JsMapFacts.NoDup_keys_set. }
      split_and!; [done | done |]. intros c. rewrite Hget.
      rewrite JsMapFacts.get_set, entryOf_cons.
      destruct (decide (flipKey flip = c)) as [<-|Hne].
      * apply JsMapFacts.get_None in Hhas. by rewrite Hhas.
      * done.
Qed.

End MergeStep.

Lemma distanceOr1_key (flip : Flip) :
  flipKey (distanceOr1 flip) = flipKey flip.
Proof. done. Qed.

Lemma mergeFlips_addFlips (othelloFlips surroundedFlips : list Flip) :
  mergeFlips othelloFlips surroundedFlips =
  JsMap.values
    (addFlips distanceOr1 (addFlips id JsMap.empty othelloFlips)
       surroundedFlips).
Proof. done. Qed.

Lemma mergeFlips_spec (othelloFlips surroundedFlips : list Flip) :
  NoDup (map flipKey (mergeFlips othelloFlips surroundedFlips)) ∧
  ∀ c, entryOf c (mergeFlips othelloFlips surroundedFlips) =
       match entryOf c othelloFlips with
       | Some f => Some f
       | None => distanceOr1 <$> entryOf c surroundedFlips
       end.
Proof.
  rewrite mergeFlips_addFlips.
  destruct (addFlips_spec id (fun _ => eq_refl) othelloFlips JsMap.empty)
    as (Hk1 & Hnd1 & Hget1); [by constructor | by constructor |].
  destruct (addFlips_spec distanceOr1 distanceOr1_key surroundedFlips
              (addFlips id JsMap.empty othelloFlips))
    as (Hk2 & Hnd2 & Hget2); [done | done |].
  split.
  - by rewrite keyed_keys.
  - intros c. rewrite keyed_entryOf by done. rewrite Hget2, Hget1. simpl.
    by destruct (entryOf c othelloFlips).
Qed.

Lemma entryOf_elem (flips : list Flip) (f : Flip) :
  NoDup (map flipKey flips) → f ∈ flips → entryOf (flipKey f) flips = Some f.
Proof.
  induction flips as [|g l IH]; simpl.
  - by intros _ ?%elem_of_nil.
  - intros Hnd Hin. apply NoDup_cons in Hnd as [Hnotin Hnd].
    rewrite entryOf_cons.
    apply elem_of_cons in Hin as [-> | Hin].
    + by rewrite decide_True.
    + rewrite decide_False; [by apply IH|].
      intros Heq. apply Hnotin. rewrite Heq.
      apply list_elem_of_fmap. by exists f.
Qed.

Lemma elem_of_mergeFlips (othelloFlips surroundedFlips : list Flip)
  (f : Flip) :
  f ∈ mergeFlips othelloFlips surroundedFlips →
  f ∈ othelloFlips ∨ ∃ f', f' ∈ surroundedFlips ∧ f = distanceOr1 f'.
Proof.
  intros Hf.
  destruct (mergeFlips_spec othelloFlips surroundedFlips) as [Hnd Hentry].
  pose proof (entryOf_elem _ f Hnd Hf) as He.
  rewrite Hentry in He.
  destruct (entryOf (flipKey f) othelloFlips) as [f0|] eqn:Ho.
  - injection He as ->. left. by apply entryOf_Some in Ho as [? _].
  - destruct (entryOf (flipKey f) surroundedFlips) as [f'|] eqn:Hs;
      [|done].
    injection He as <-. right. exists f'. split; [|done].
    by apply entryOf_Some in Hs as [? _].
Qed.

(** ** What the two rules capture *)

Lemma other_ne (p : Player) : other p ≠ p.
Proof. by destruct p. Qed.

Lemma elem_of_concat {A : Type} (x : A) (ls : list (list A)) :
  x ∈ concat ls ↔ ∃ l, l ∈ ls ∧ x ∈ l.
Proof.
  induction ls as [|l ls IH]; simpl.
  - split; [by intros ?%elem_of_nil | by intros (l & ?%elem_of_nil & _)].
  - rewrite elem_of_app, IH. split.
    + intros [?|(l' & ? & ?)]; [exists l | exists l']; split; try done.
      * left.
      * by right.
    + intros (l' & [-> | ?]%elem_of_cons & ?); [by left | right; eauto].
Qed.

Lemma getOthelloFlips_flips (t : Tiles) (q r : Z) (p : Player) (f : Flip) :
  f ∈ getOthelloFlips t q r p →
  ∃ (d : Hex) (j : nat),
    d ∈ directions ∧ (1 <= j)%nat ∧ f = flipAt q r d j ∧
    opponentAt t p (ray q r d j).
Proof.
  rewrite getOthelloFlips_directions.
  intros (l & (d & -> & Hd)%list_elem_of_fmap & Hf)%elem_of_concat.
  destruct (lineCapture_flips t q r p d f Hf) as (j & ? & ? & ?).
  by exists d, j.
Qed.

(** The flips of the line rule have pairwise distinct coordinates. *)
Lemma getOthelloFlips_key_inj (t : Tiles) (q r : Z) (p : Player)
  (f1 f2 : Flip) :
  f1 ∈ getOthelloFlips t q r p → f2 ∈ getOthelloFlips t q r p →
  flipKey f1 = flipKey f2 → f1 = f2.
Proof.
  intros (d1 & j1 & Hd1 & Hj1 & -> & _)%getOthelloFlips_flips
         (d2 & j2 & Hd2 & Hj2 & -> & _)%getOthelloFlips_flips.
  unfold flipKey, flipAt, hexKey. cbn [flip_q flip_r].
  rewrite <- !surjective_pairing. intros Hray. apply ray_inj in Hray as [-> Hj]; [|done|done|lia|lia].
  by rewrite Hj.
Qed.

Lemma entryOf_getOthelloFlips (t : Tiles) (q r : Z) (p : Player) (f : Flip) :
  f ∈ getOthelloFlips t q r p →
  entryOf (flipKey f) (getOthelloFlips t q r p) = Some f.
Proof.
  intros Hf.
  destruct (entryOf (flipKey f) (getOthelloFlips t q r p)) as [f'|] eqn:He.
  - apply entryOf_Some in He as [Hf' Hkey]. f_equal.
    by apply (getOthelloFlips_key_inj t q r p).
  - exfalso. by apply (proj1 (entryOf_None _ _) He f).
Qed.

Lemma straightLine_owned (t : Tiles) (pl : Player) (d : Hex) (fuel : nat) :
  ∀ (q r : Z) (acc l : list Hex),
  straightLine fuel t pl d q r acc = Some l →
  ∀ c, c ∈ l → c ∈ acc ∨ JsMap.get t c = Some pl.
Proof.
  induction fuel as [|fuel IH]; intros q r acc l; [done|]. simpl.
  destruct (isValidHex q r); [|intros [= <-]; by left].
  destruct (decide (JsMap.get t (hexKey q r) = Some pl)) as [Hown|Hown];
    [|intros [= <-]; by left].
  intros Hl c Hc. destruct (IH _ _ _ _ Hl c Hc) as [Hin|?]; [|by right].
  apply elem_of_app in Hin as [? | ->%list_elem_of_singleton];
    [by left | by right].
Qed.

Lemma getTilesInStraightLines_owned (t : Tiles) (q r : Z) (pl : Player)
  (c : Hex) :
  c ∈ getTilesInStraightLines t q r pl → JsMap.get t c = Some pl.
Proof.
  unfold getTilesInStraightLines.
  assert (Hgen : ∀ (dirs : list Hex) (acc : list Hex),
    (∀ c, c ∈ acc → JsMap.get t c = Some pl) →
    ∀ c, c ∈ foldl
          (fun tilesToFlip dir =>
             default tilesToFlip
               (straightLine scanFuel t pl dir (q + fst dir) (r + snd dir)
                  tilesToFlip)) acc dirs →
    JsMap.get t c = Some pl).
  { induction dirs as [|d dirs IH]; intros acc Hacc; cbn [foldl]; [done|].
    apply IH. intros c'.
    destruct (straightLine _ _ _ _ _ _ _) as [l|] eqn:Hl; cbn [default];
      [|by auto].
    intros Hc'. destruct (straightLine_owned _ _ _ _ _ _ _ _ Hl c' Hc');
      by auto. }
  apply Hgen. by intros c' ?%elem_of_nil.
Qed.

Lemma elem_of_getPlayerTiles (t : Tiles) (pl : Player) (c : Hex) :
  c ∈ getPlayerTiles t pl ↔ (c, pl) ∈ t.
Proof.
  unfold getPlayerTiles. rewrite list_elem_of_fmap. split.
  - intros ([c' pl'] & -> & [Hpl Hin]%list_elem_of_filter).
    simpl in *. by subst.
  - intros Hin. exists (c, pl). split; [done|].
    by apply list_elem_of_filter.
Qed.

(** Every flip of the surround rule has a distance of at least one and
    is a cell of the defending player. *)
Lemma getSurroundedFlips_flips (t : Tiles) (p : Player) (f : Flip) :
  f ∈ getSurroundedFlips t p →
  1 <= distance f ∧ (flipKey f, other p) ∈ t.
Proof.
  unfold getSurroundedFlips.
  assert (Hgen : ∀ (defending : list Hex) (acc : list Flip),
    (∀ c, c ∈ defending → (c, other p) ∈ t) →
    (∀ f, f ∈ acc → 1 <= distance f ∧ (flipKey f, other p) ∈ t) →
    f ∈ foldl
      (fun flips tile =>
         if isTileSurrounded (fst tile) (snd tile) (calculateZOC t p) then
           (flips ++ [mkFlip (fst tile) (snd tile) 1]) ++
           imap (fun idx lt => mkFlip (fst lt) (snd lt) (Z.of_nat idx + 2))
             (getTilesInStraightLines t (fst tile) (snd tile) (other p))
         else flips) acc defending →
    1 <= distance f ∧ (flipKey f, other p) ∈ t).
  { induction defending as [|tile defending IH]; intros acc Hdef Hacc;
      cbn [foldl].
    - apply Hacc.
    - apply IH; [intros c Hc; apply Hdef; by right|].
      destruct (isTileSurrounded _ _ _); [|done].
      intros f' [[Hf'|Hf']%elem_of_app|Hf']%elem_of_app.
      + by apply Hacc.
      + apply list_elem_of_singleton in Hf' as ->. simpl. split; [lia|].
        unfold flipKey, hexKey. simpl. rewrite <- surjective_pairing.
        apply Hdef. left.
      + apply elem_of_lookup_imap in Hf' as (idx & lt & -> & Hlt).
        simpl. split; [lia|].
        unfold flipKey, hexKey. simpl. rewrite <- surjective_pairing.
        apply JsMapFacts.get_Some_elem.
        apply (getTilesInStraightLines_owned t (fst tile) (snd tile)).
        by apply list_elem_of_lookup_2 in Hlt. }
  apply Hgen.
  - by intros c Hc%elem_of_getPlayerTiles.
  - by intros f' ?%elem_of_nil.
Qed.

Lemma distanceOr1_id (f : Flip) : 1 <= distance f → distanceOr1 f = f.
Proof.
  intros Hd. destruct f as [fq fr fd]. unfold distanceOr1. simpl in *.
  destruct (fd =? 0) eqn:H0; [lia | done].
Qed.

(** Every flip of the merged capture set is a cell of the opponent on
    the board with the new tile, hence on the board before it. *)
Lemma captureSet_flips (t : Tiles) (q r : Z) (p : Player) (f : Flip) :
  NoDup (JsMap.keys t) → f ∈ captureSet t q r p →
  flipKey f ≠ (q, r) ∧ JsMap.get t (flipKey f) = Some (other p).
Proof.
  intros Hnd Hf.
  assert (Hopp : JsMap.get (JsMap.set t (hexKey q r) p) (flipKey f)
                 = Some (other p)).
  { apply elem_of_mergeFlips in Hf as [Hf|(f' & Hf' & ->)].
    - apply getOthelloFlips_flips in Hf as (d & j & _ & _ & -> & [_ Ho]).
      unfold flipKey, flipAt, hexKey. cbn [flip_q flip_r].
      by rewrite <- surjective_pairing.
    - apply getSurroundedFlips_flips in Hf' as [Hd Ho].
      rewrite distanceOr1_key.
      apply JsMapFacts.elem_get_Some; [|done].
      by apply JsMapFacts.NoDup_keys_set. }
  rewrite JsMapFacts.get_set in Hopp. unfold hexKey in Hopp.
  destruct (decide ((q, r) = flipKey f)) as [Heq|Hne].
  - injection Hopp as Hp. by destruct p.
  - split; [congruence | done].
Qed.

(** ** Runs *)

Lemma reachable_run (w : World) (es : list Event) :
  reachable w → reachable (run w es).
Proof.
  revert w. induction es as [|e es IH]; intros w Hw; [done|].
  apply IH. by constructor.
Qed.

Lemma reachable_bracketWorld : reachable bracketWorld.
Proof. apply reachable_run. constructor. Qed.

Lemma reachable_dedupWorld : reachable dedupWorld.
Proof. apply reachable_run. constructor. Qed.

(** ** The merged capture set of a placement *)

(** The entry of a coordinate in the merged capture set; the distance of
    a surround flip is never zero, so [distanceOr1] leaves it as it is. *)
Lemma captureSet_entry (t : Tiles) (q r : Z) (p : Player) (c : Hex) :
  entryOf c (captureSet t q r p) =
  match entryOf c (getOthelloFlips (JsMap.set t (hexKey q r) p) q r p) with
  | Some f => Some f
  | None => entryOf c (getSurroundedFlips (JsMap.set t (hexKey q r) p) p)
  end.
Proof.
  unfold captureSet.
  destruct (mergeFlips_spec
              (getOthelloFlips (JsMap.set t (hexKey q r) p) q r p)
              (getSurroundedFlips (JsMap.set t (hexKey q r) p) p))
    as [_ Hentry].
  rewrite Hentry. destruct (entryOf c (getOthelloFlips _ _ _ _)); [done|].
  destruct (entryOf c (getSurroundedFlips _ _)) as [f|] eqn:Hs; [|done].
  simpl. apply entryOf_Some in Hs as [Hf _].
  apply getSurroundedFlips_flips in Hf as [Hd _].
  by rewrite distanceOr1_id.
Qed.

(** C2. The merged capture set of a placement holds at most one entry per
    coordinate, and the entry of a coordinate is the first one that the
    line rule recorded for it if there is one, and otherwise the first one
    that the surround rule recorded. *)
Theorem captureSet_one_entry_per_cell (t : Tiles) (q r : Z) (p : Player) :
  let t' := JsMap.set t (hexKey q r) p in
  let lineFlips := getOthelloFlips t' q r p in
  let surroundFlips := getSurroundedFlips t' p in
  captureSet t q r p = mergeFlips lineFlips surroundFlips ∧
  NoDup (map flipKey (captureSet t q r p)) ∧
  ∀ c, entryOf c (captureSet t q r p) =
       match entryOf c lineFlips with
       | Some f => Some f
       | None => entryOf c surroundFlips
       end.
Proof.
  intros t' lineFlips surroundFlips. split; [done|].
  destruct (mergeFlips_spec lineFlips surroundFlips) as [Hnd _].
  split; [done|]. intros c. apply captureSet_entry.
Qed.

(** The position of the specification in which both rules flip the same
    cell: the cell is once in the merged set, with the entry of the line
    rule. *)
Example captureSet_dedup_example :
  let t' := JsMap.set (tiles (gameState dedupWorld)) (hexKey 0 0) WHITE in
  getOthelloFlips t' 0 0 WHITE = [mkFlip 1 0 1] ∧
  getSurroundedFlips t' WHITE = [mkFlip 1 0 1] ∧
  captureSet (tiles (gameState dedupWorld)) 0 0 WHITE = [mkFlip 1 0 1].
Proof. by vm_compute. Qed.

(** C1, as amended. Every cell captured by the line rule is in the merged
    capture set with the rank that the scan gave it: its distance from
    the placed tile along the capturing direction (1 for the cell next to
    the placed tile, 2 for the following one, and so on). *)
Theorem lineCapture_rank_is_distance (t : Tiles) (q r : Z) (p : Player)
  (f : Flip) :
  f ∈ getOthelloFlips (JsMap.set t (hexKey q r) p) q r p →
  entryOf (flipKey f) (captureSet t q r p) = Some f ∧
  ∃ (d : Hex) (k : nat),
    d ∈ directions ∧ (1 <= k)%nat ∧ flipKey f = ray q r d k ∧
    distance f = k.
Proof.
  intros Hf. split.
  - rewrite captureSet_entry. by rewrite entryOf_getOthelloFlips.
  - apply getOthelloFlips_flips in Hf as (d & k & Hd & Hk & -> & _).
    by exists d, k.
Qed.

Lemma lineCapture_rank_is_distance_witness :
  entryOf (2, 0) (captureSet (tiles (gameState bracketWorld)) 0 0 WHITE)
  = Some (mkFlip 2 0 2).
Proof.
  apply (lineCapture_rank_is_distance
           (tiles (gameState bracketWorld)) 0 0 WHITE (mkFlip 2 0 2)).
  vm_compute. right. left.
Defined.

(** C1, as stated, fails: after White (3,0), Black (1,0), White (-5,0),
    Black (2,0), the tile of White at (0,0) is accepted and line-captures
    (1,0) and (2,0); the cell (2,0) carries rank 2, and it is flipped by
    the second timer, 150 ms after the first batch. *)
Lemma lineCapture_rank_counterexample :
  reachable bracketWorld ∧
  fst (placeTile bracketWorld 0 0 0) = true ∧
  ¬ lineFlipsRank1 (tiles (gameState bracketWorld)) 0 0 WHITE ∧
  timers (snd (placeTile bracketWorld 0 0 0)) =
    [ mkTimer 0 (FlipBatch [mkFlip 1 0 1] WHITE);
      mkTimer 150 (FlipBatch [mkFlip 2 0 2] WHITE);
      mkTimer 300 FinishAnimation ].
Proof.
  split; [apply reachable_bracketWorld|].
  split; [by vm_compute|]. split; [|by vm_compute].
  intros Hall. destruct (Hall (mkFlip 2 0 2)) as (f' & Hentry & Hrank).
  - vm_compute. right. left.
  - vm_compute in Hentry. injection Hentry as <-. discriminate Hrank.
Qed.

(** The bracket position: to the east of (0,0) the run has two cells and
    ends on a white tile. *)
Lemma lineCapture_per_direction_witness :
  lineCapture
    (JsMap.set (tiles (gameState bracketWorld)) (hexKey 0 0) WHITE)
    0 0 WHITE (1, 0)
  = [mkFlip 1 0 1; mkFlip 2 0 2].
Proof.
  destruct (lineCapture_per_direction
              (JsMap.set (tiles (gameState bracketWorld)) (hexKey 0 0) WHITE)
              0 0 WHITE (1, 0) 2) as (Hline & _ & _).
  - left.
  - intros k Hk. assert (Hcases : k = 1%nat ∨ k = 2%nat) by lia.
    destruct Hcases as [-> | ->]; by vm_compute.
  - intros [_ Hown]. vm_compute in Hown. discriminate Hown.
  - rewrite Hline. by vm_compute.
Defined.

(** ** Zone of control *)

Lemma foldl_zone (hexes : list Hex) (zoc : gset Hex) :
  foldl
    (fun zoc hex =>
       if isValidHex (fst hex) (snd hex) then zoc ∪ {[ hex ]} else zoc)
    zoc hexes
  = zoc ∪ list_to_set (filter validHex hexes).
Proof.
  revert zoc. induction hexes as [|hex hexes IH]; intros zoc; simpl.
  - by rewrite (right_id_L ∅ (∪)).
  - rewrite IH. destruct (isValidHex (fst hex) (snd hex)) eqn:Hv.
    + rewrite filter_cons_True by done. simpl.
      by rewrite (assoc_L (∪)).
    + rewrite filter_cons_False; [done|].
      unfold validHex. by rewrite Hv.
Qed.

Lemma calculateZOC_union (t : Tiles) (pl : Player) :
  calculateZOC t pl = ⋃ (tileZone <$> getPlayerTiles t pl).
Proof.
  unfold calculateZOC.
  assert (Hgen : ∀ (l : list Hex) (zoc : gset Hex),
    foldl
      (fun zoc tile =>
         foldl
           (fun zoc hex =>
              if isValidHex (fst hex) (snd hex) then zoc ∪ {[ hex ]}
              else zoc)
           zoc (getZOCHexes (fst tile) (snd tile)))
      zoc l
    = zoc ∪ ⋃ (tileZone <$> l)).
  { induction l as [|tile l IH]; intros zoc.
    - simpl. by rewrite (right_id_L ∅ (∪)).
    - cbn [foldl]. rewrite IH, foldl_zone, fmap_cons, union_list_cons.
      by rewrite (assoc_L (∪)). }
  rewrite Hgen. by rewrite (left_id_L ∅ (∪)).
Qed.

Lemma elem_of_tileZone (tile c : Hex) :
  c ∈ tileZone tile ↔
  validHex c ∧ (c = tile ∨ c ∈ getSurroundingHexes (fst tile) (snd tile)).
Proof.
  unfold tileZone, getZOCHexes.
  rewrite elem_of_list_to_set, list_elem_of_filter, elem_of_cons.
  by rewrite <- surjective_pairing.
Qed.

Lemma elem_of_calculateZOC (t : Tiles) (pl : Player) (c : Hex) :
  c ∈ calculateZOC t pl ↔
  validHex c ∧
  ∃ tile, (tile, pl) ∈ t ∧
    (c = tile ∨ c ∈ getSurroundingHexes (fst tile) (snd tile)).
Proof.
  rewrite calculateZOC_union, elem_of_union_list. split.
  - intros (X & (tile & -> & Htile)%list_elem_of_fmap & Hc).
    apply elem_of_tileZone in Hc as [Hv Hc].
    apply elem_of_getPlayerTiles in Htile. eauto.
  - intros (Hv & tile & Htile & Hc). exists (tileZone tile). split.
    + apply list_elem_of_fmap. exists tile. split; [done|].
      by apply elem_of_getPlayerTiles.
    + by apply elem_of_tileZone.
Qed.

Lemma NoDup_getZOCHexes (q r : Z) : NoDup (getZOCHexes q r).
Proof.
  unfold getZOCHexes, getSurroundingHexes, directions. simpl.
  repeat (apply NoDup_cons; split;
          [rewrite ?elem_of_cons, elem_of_nil; intros Hin;
           repeat (destruct Hin as [Hin|Hin]; [injection Hin; lia|]); done|]).
  apply NoDup_nil_2.
Qed.

Lemma size_tileZone (tile : Hex) :
  validHex tile →
  size (tileZone tile) = S (length (getNeighbors (fst tile) (snd tile))).
Proof.
  intros Hv. unfold tileZone.
  rewrite size_list_to_set by apply NoDup_filter, NoDup_getZOCHexes.
  unfold getZOCHexes. rewrite filter_cons_True.
  - done.
  - by rewrite <- surjective_pairing.
Qed.

Lemma length_filter_all {A : Type} (P : A → Prop) `{∀ x, Decision (P x)}
  (l : list A) :
  length (filter P l) = length l ↔ Forall P l.
Proof.
  induction l as [|h l IH]; simpl.
  - split; [by constructor | done].
  - destruct (decide (P h)) as [Hv|Hv].
    + rewrite filter_cons_True by done. simpl. rewrite Forall_cons.
      split; [intros [= Hl]; split; [done | by apply IH] |].
      intros [_ Hl]. f_equal. by apply IH.
    + rewrite filter_cons_False by done. rewrite Forall_cons.
      pose proof (length_filter P l) as Hle.
      split; [intros Heq; exfalso; lia | tauto].
Qed.

Lemma length_getNeighbors (q r : Z) :
  (length (getNeighbors q r) <= 6)%nat ∧
  (length (getNeighbors q r) = 6%nat ↔
   Forall validHex (getSurroundingHexes q r)).
Proof.
  unfold getNeighbors.
  assert (Hlen : length (getSurroundingHexes q r) = 6%nat) by done.
  rewrite <- Hlen. split; [apply length_filter | apply length_filter_all].
Qed.

(** C5. On a board that satisfies the board invariant, the zone of
    control of a player is the set of the valid coordinates among the
    cells of the player and their six surrounding cells.  For a player
    with exactly one tile the zone contains that tile, has one member
    more than the tile has valid neighbours, hence at most 7 members, and
    exactly 7 when (and only when) all six neighbours are on the board. *)
Theorem calculateZOC_spec (t : Tiles) (pl : Player) :
  boardOk t →
  (∀ c, c ∈ calculateZOC t pl ↔
        validHex c ∧
        ∃ tile, JsMap.get t tile = Some pl ∧
          (c = tile ∨ c ∈ getSurroundingHexes (fst tile) (snd tile))) ∧
  (∀ tile, getPlayerTiles t pl = [tile] →
     tile ∈ calculateZOC t pl ∧
     size (calculateZOC t pl)
       = S (length (getNeighbors (fst tile) (snd tile))) ∧
     (size (calculateZOC t pl) <= 7)%nat ∧
     (size (calculateZOC t pl) = 7%nat ↔
      Forall validHex (getSurroundingHexes (fst tile) (snd tile)))).
Proof.
  intros [Hnd Hvalid]. split.
  - intros c. rewrite elem_of_calculateZOC. split.
    + intros (Hv & tile & Htile & Hc). split; [done|]. exists tile.
      split; [by apply JsMapFacts.elem_get_Some | done].
    + intros (Hv & tile & Htile & Hc). split; [done|]. exists tile.
      split; [by apply JsMapFacts.get_Some_elem | done].
  - intros tile Hone.
    assert (Htile : validHex tile).
    { assert (Hin : tile ∈ getPlayerTiles t pl) by (rewrite Hone; left).
      apply elem_of_getPlayerTiles in Hin.
      rewrite Forall_forall in Hvalid. apply Hvalid.
      apply list_elem_of_fmap. by exists (tile, pl). }
    rewrite calculateZOC_union, Hone. simpl.
    rewrite (right_id_L ∅ (∪)), size_tileZone by done.
    pose proof (length_getNeighbors (fst tile) (snd tile)) as [Hle Hsix].
    split_and!.
    + apply elem_of_tileZone. split; [done | by left].
    + done.
    + lia.
    + rewrite <- Hsix. lia.
Qed.

(** A lone white tile in the middle of the board, and one in a corner. *)
Lemma calculateZOC_spec_witness :
  size (calculateZOC [((0, 0), WHITE)] WHITE) = 7%nat ∧
  size (calculateZOC [((7, 0), WHITE); ((0, 0), BLACK)] WHITE) = 4%nat.
Proof.
  split.
  - assert (Hok : boardOk [((0, 0), WHITE)]).
    { split; [apply NoDup_singleton | by apply Forall_singleton]. }
    destruct (calculateZOC_spec _ WHITE Hok) as [_ Hone].
    destruct (Hone (0, 0) eq_refl) as (_ & -> & _). reflexivity.
  - assert (Hok : boardOk [((7, 0), WHITE); ((0, 0), BLACK)]).
    { split.
      - apply NoDup_cons. split; [|apply NoDup_singleton].
        by intros [=]%list_elem_of_singleton.
      - by repeat constructor. }
    destruct (calculateZOC_spec _ WHITE Hok) as [_ Hone].
    destruct (Hone (7, 0) eq_refl) as (_ & -> & _). reflexivity.
Defined.

(** ** Staging the flips *)

Lemma elem_of_insertByDistance (f g : Flip) (l : list Flip) :
  f ∈ insertByDistance g l ↔ f = g ∨ f ∈ l.
Proof.
  induction l as [|h l IH]; simpl.
  - rewrite list_elem_of_singleton, elem_of_nil. tauto.
  - destruct (distance h <? distance g).
    + rewrite !elem_of_cons, IH. tauto.
    + by rewrite !elem_of_cons.
Qed.

Lemma elem_of_sortByDistance (f : Flip) (l : list Flip) :
  f ∈ sortByDistance l ↔ f ∈ l.
Proof.
  unfold sortByDistance. induction l as [|g l IH]; simpl; [done|].
  by rewrite elem_of_insertByDistance, IH, elem_of_cons.
Qed.

Lemma elem_of_insertZ (x y : Z) (l : list Z) :
  x ∈ insertZ y l ↔ x = y ∨ x ∈ l.
Proof.
  induction l as [|h l IH]; simpl.
  - rewrite list_elem_of_singleton, elem_of_nil. tauto.
  - destruct (h <? y).
    + rewrite !elem_of_cons, IH. tauto.
    + by rewrite !elem_of_cons.
Qed.

Lemma elem_of_sortZ (x : Z) (l : list Z) : x ∈ sortZ l ↔ x ∈ l.
Proof.
  unfold sortZ. induction l as [|y l IH]; simpl; [done|].
  by rewrite elem_of_insertZ, IH, elem_of_cons.
Qed.

(** The groups hold the flips of the list, each under its distance. *)
Lemma groupByDistance_spec (flips : list Flip) (dist : Z) :
  ∀ f, f ∈ default [] (JsMap.get (groupByDistance flips) dist) ↔
       f ∈ flips ∧ distance f = dist.
Proof.
  unfold groupByDistance.
  assert (Hgen : ∀ (l : list Flip) (m : JsMap.t Z (list Flip)) f,
    f ∈ default [] (JsMap.get
      (foldl
         (fun m flip =>
            let dist := distance flip in
            let m :=
              if negb (JsMap.has m dist) then JsMap.set m dist [] else m in
            JsMap.set m dist (default [] (JsMap.get m dist) ++ [flip]))
         m l) dist) ↔
    f ∈ default [] (JsMap.get m dist) ∨ (f ∈ l ∧ distance f = dist)).
  { induction l as [|g l IH]; intros m f; cbn [foldl].
    - rewrite elem_of_nil. tauto.
    - rewrite IH. cbv zeta. rewrite JsMapFacts.get_set, elem_of_cons.
      destruct (decide (distance g = dist)) as [Hg|Hg].
      + simpl. rewrite elem_of_app, list_elem_of_singleton.
        assert (Hsame : default [] (JsMap.get
                  (if negb (JsMap.has m (distance g))
                   then JsMap.set m (distance g) [] else m) (distance g))
                = default [] (JsMap.get m dist)).
        { unfold JsMap.has. subst dist.
          destruct (JsMap.get m (distance g)) eqn:Hm; simpl.
          - by rewrite Hm.
          - by rewrite JsMapFacts.get_set_eq. }
        rewrite Hsame. split.
        * intros [[? | ->] | [? ?]]; eauto.
        * intros [? | [[-> | ?] ?]]; eauto.
      + assert (Hsame : JsMap.get
                  (if negb (JsMap.has m (distance g))
                   then JsMap.set m (distance g) [] else m) dist
                = JsMap.get m dist).
        { destruct (negb _); [|done]. by rewrite JsMapFacts.get_set_ne. }
        rewrite Hsame. split.
        * intros [?|[? ?]]; eauto.
        * intros [? | [[-> | ?] ?]]; eauto. done. }
  intros f. rewrite Hgen. simpl. rewrite elem_of_nil. tauto.
Qed.

Lemma scheduleBatches_spec (distances : list Z)
  (m : JsMap.t Z (list Flip)) (p : Player) :
  ∀ delay0,
  let ts := fst (scheduleBatches distances m p delay0) in
  snd (scheduleBatches distances m p delay0)
    = delay0 + delayIncrement * Z.of_nat (length distances) ∧
  map action ts =
    map (fun dist => FlipBatch (default [] (JsMap.get m dist)) p) distances ∧
  map delay ts =
    map (fun i : nat => delay0 + delayIncrement * Z.of_nat i)
      (seq 0 (length distances)).
Proof.
  induction distances as [|dist rest IH]; intros delay0; simpl.
  - split_and!; [lia | done | done].
  - specialize (IH (delay0 + delayIncrement)).
    destruct (scheduleBatches rest m p (delay0 + delayIncrement))
      as [ts d']. simpl in *.
    destruct IH as (Hd & Ha & Hdel). split_and!.
    + lia.
    + by rewrite Ha.
    + rewrite Hdel. f_equal; [lia|].
      rewrite <- seq_shift, map_map. apply map_ext. intros i. lia.
Qed.

(** The timers that [animateFlips] registers: one batch per distance,
    every batch made of flips of the list and flipping to [p], then the
    end of the animation; the delays are 0, 150, 300, ... in the order of
    registration. *)
Lemma animateFlips_timers (w : World) (flips : list Flip) (p : Player) :
  ∃ batches,
    timers (animateFlips w flips p) =
      timers w ++ batches ++
      [mkTimer (delayIncrement * Z.of_nat (length batches)) FinishAnimation] ∧
    Forall isBatch batches ∧
    queueOk (fun f pl => f ∈ flips ∧ pl = p) batches ∧
    map delay batches =
      map (fun i : nat => delayIncrement * Z.of_nat i)
        (seq 0 (length batches)).
Proof.
  unfold animateFlips.
  pose proof (scheduleBatches_spec
    (sortZ (JsMap.keys (groupByDistance (sortByDistance flips))))
    (groupByDistance (sortByDistance flips)) p 0) as Hs.
  destruct (scheduleBatches _ _ _ _) as [batches d]. simpl in *.
  destruct Hs as (Hd & Ha & Hdel).
  assert (Hlen : length batches = length
    (sortZ (JsMap.keys (groupByDistance (sortByDistance flips))))).
  { apply (f_equal length) in Ha. by rewrite !length_map in Ha. }
  exists batches. split_and!.
  - rewrite Hd, Hlen. do 3 f_equal; lia.
  - apply Forall_forall. intros tm Htm.
    assert (Hact : action tm ∈ map action batches).
    { apply list_elem_of_fmap. by exists tm. }
    rewrite Ha in Hact.
    apply list_elem_of_fmap in Hact as (dist & Hact & _).
    unfold isBatch. by rewrite Hact.
  - apply Forall_forall. intros tm Htm.
    assert (Hact : action tm ∈ map action batches).
    { apply list_elem_of_fmap. by exists tm. }
    rewrite Ha in Hact.
    apply list_elem_of_fmap in Hact as (dist & Hact & _).
    rewrite Hact. apply Forall_forall. intros f Hf.
    apply groupByDistance_spec in Hf as [Hf _].
    apply (proj1 (elem_of_sortByDistance _ _)) in Hf. by split.
  - rewrite Hdel, Hlen. apply map_ext. intros i. lia.
Qed.

(** ** Applying a batch *)

Lemma get_applyBatch (t : Tiles) (flips : list Flip) (p : Player) (c : Hex) :
  JsMap.get (applyBatch t flips p) c =
  if decide (c ∈ map flipKey flips) then Some p else JsMap.get t c.
Proof.
  unfold applyBatch. revert t.
  induction flips as [|f flips IH]; intros t; cbn [foldl map].
  - rewrite decide_False; [done | by intros ?%elem_of_nil].
  - rewrite IH. rewrite JsMapFacts.get_set.
    destruct (decide (c ∈ map flipKey flips)) as [Hin|Hnotin].
    + rewrite decide_True; [done | by right].
    + destruct (decide (flipKey f = c)) as [<-|Hne].
      * rewrite decide_True; [done | left].
      * rewrite decide_False; [done|].
        by intros [?|?]%elem_of_cons.
Qed.

Lemma keys_applyBatch (t : Tiles) (flips : list Flip) (p : Player) :
  Forall (fun f => flipKey f ∈ JsMap.keys t) flips →
  JsMap.keys (applyBatch t flips p) = JsMap.keys t.
Proof.
  unfold applyBatch. revert t.
  induction flips as [|f flips IH]; intros t Hall; simpl; [done|].
  apply Forall_cons in Hall as [Hf Hall].
  rewrite IH; rewrite JsMapFacts.keys_set_present; done.
Qed.

(** ** The invariant of the reachable worlds *)

Lemma timers_finishTurn (w : World) : timers (finishTurn w) = timers w.
Proof.
  unfold finishTurn.
  by destruct ((whiteTilesRemaining _ =? 0) && (blackTilesRemaining _ =? 0)).
Qed.

Lemma finishTurn_fields (w : World) :
  let gs := gameState w in
  let gs' := gameState (finishTurn w) in
  tiles gs' = tiles gs ∧
  whiteTilesRemaining gs' = whiteTilesRemaining gs ∧
  blackTilesRemaining gs' = blackTilesRemaining gs ∧
  isAnimating gs' = isAnimating gs ∧
  gameOver gs' =
    (whiteTilesRemaining gs =? 0) && (blackTilesRemaining gs =? 0)
    || gameOver gs.
Proof.
  simpl. rewrite gameState_finishTurn. simpl.
  destruct ((whiteTilesRemaining _ =? 0) && (blackTilesRemaining _ =? 0));
    simpl; split_and!; done.
Qed.

Lemma Inv_init : Inv initialWorld.
Proof.
  unfold Inv, boardOk, queueOk, staged. simpl.
  split_and!; [apply NoDup_nil_2 | done | done | done | done].
Qed.

Lemma Inv_finishTurn (w : World) :
  isAnimating (gameState w) = false → Inv w → Inv (finishTurn w).
Proof.
  intros Han (Hok & Hq & Hst & Hcount).
  destruct (finishTurn_fields w) as (Ht & Hw & Hb & Ha & _).
  unfold Inv, staged in *. rewrite timers_finishTurn, Ht, Hw, Hb, Ha.
  by rewrite Han in *.
Qed.

Lemma queueOk_app (P : Flip → Player → Prop) (ts1 ts2 : list Timer) :
  queueOk P (ts1 ++ ts2) ↔ queueOk P ts1 ∧ queueOk P ts2.
Proof. apply Forall_app. Qed.

Lemma queueOk_impl (P Q : Flip → Player → Prop) (ts : list Timer) :
  (∀ f pl, P f pl → Q f pl) → queueOk P ts → queueOk Q ts.
Proof.
  intros HPQ Hts. unfold queueOk in *.
  eapply Forall_impl; [exact Hts|]. intros tm. cbv beta.
  destruct (action tm); [|done].
  intros Hfl. eapply Forall_impl; [exact Hfl|]. eauto.
Qed.

Lemma captureSet_keys (t : Tiles) (q r : Z) (p : Player) (f : Flip) :
  NoDup (JsMap.keys t) → f ∈ captureSet t q r p →
  flipKey f ∈ JsMap.keys (JsMap.set t (hexKey q r) p).
Proof.
  intros Hnd Hf. destruct (captureSet_flips t q r p f Hnd Hf) as [Hne Hget].
  apply JsMapFacts.get_is_Some. rewrite JsMapFacts.get_set_ne.
  - by rewrite Hget.
  - unfold hexKey. congruence.
Qed.

Lemma Inv_placeTile (w : World) (q r now : Z) :
  Inv w → Inv (snd (placeTile w q r now)).
Proof.
  intros HInv. destruct (decide (rejected w q r)) as [Hr|Hnr].
  { by rewrite placeTile_rejected. }
  rewrite placeTile_accepted by done. cbv zeta. cbn [snd].
  destruct HInv as ([Hnd Hvalid] & Hq & Hst & Hcount).
  unfold rejected in Hnr. cbv zeta in Hnr.
  assert (Hgo : gameOver (gameState w) = false).
  { destruct (gameOver (gameState w)); tauto. }
  assert (Han : isAnimating (gameState w) = false).
  { destruct (isAnimating (gameState w)); tauto. }
  assert (Hv : validHex (q, r)).
  { unfold validHex. simpl. destruct (isValidHex q r); tauto. }
  assert (Hfree : hexKey q r ∉ JsMap.keys (tiles (gameState w))).
  { apply JsMapFacts.has_false.
    destruct (JsMap.has (tiles (gameState w)) (hexKey q r)); [|done].
    exfalso. apply Hnr. do 3 right. by left. }
  unfold staged in Hst. rewrite Han in Hst.
  set (p := currentPlayer (gameState w)).
  set (w' := mkWorld (putTile (gameState w) q r now) (timers w) (modal w)).
  assert (HInv' : Inv w').
  { unfold Inv, staged, boardOk, w', putTile. simpl.
    rewrite JsMapFacts.keys_set_absent by done.
    rewrite JsMapFacts.length_set_absent by done.
    rewrite Han, Hst. split_and!.
    - apply NoDup_app. split_and!; [done | | apply NoDup_singleton].
      intros x Hx ->%list_elem_of_singleton. done.
    - apply Forall_app. split; [done | by apply Forall_singleton].
    - constructor.
    - done.
    - destruct (currentPlayer (gameState w)); simpl; lia. }
  destruct (0 <? length _)%nat eqn:Hlen; [|by apply Inv_finishTurn].
  destruct (animateFlips_timers w'
              (captureSet (tiles (gameState w)) q r p) p)
    as (batches & Htimers & Hbatches & Hflips & _).
  destruct HInv' as (Hok' & _ & _ & Hcount').
  unfold Inv, staged. rewrite gameState_animateFlips, Htimers. simpl.
  rewrite Hst. simpl. split_and!.
  - done.
  - apply queueOk_app. split; [|by repeat constructor].
    eapply queueOk_impl; [|exact Hflips]. simpl.
    intros f pl [Hf _]. by apply captureSet_keys.
  - done.
  - by exists batches, (delayIncrement * Z.of_nat (length batches)).
  - done.
Qed.

Lemma Inv_fireTimer (w : World) : Inv w → Inv (fireTimer w).
Proof.
  intros HInv. unfold fireTimer.
  destruct (timers w) as [|tm rest] eqn:Hts; [done|].
  destruct HInv as ([Hnd Hvalid] & Hq & Hst & Hcount).
  unfold staged in Hst. rewrite Hts in Hst, Hq.
  destruct (isAnimating (gameState w)) eqn:Han; [|done].
  destruct Hst as (Hgo & batches & d & Hshape & Hbatches).
  apply Forall_cons in Hq as [Htm Hrest].
  destruct (action tm) as [flipsAtDist newPlayer|] eqn:Hact; simpl.
  - destruct batches as [|b batches]; simpl in Hshape.
    { injection Hshape as -> _. discriminate Hact. }
    injection Hshape as -> ->. apply Forall_cons in Hbatches as [_ Hbatches].
    pose proof (keys_applyBatch _ _ newPlayer Htm) as Hkeys.
    unfold Inv, staged, boardOk. simpl. rewrite Hkeys, Han.
    split_and!; try done.
    + by exists batches, d.
    + rewrite <- Hcount. f_equal.
      apply (f_equal length) in Hkeys. unfold JsMap.keys in Hkeys.
      by rewrite !length_map in Hkeys.
  - destruct batches as [|b batches]; simpl in Hshape.
    + injection Hshape as -> ->.
      apply Inv_finishTurn; [done|].
      unfold Inv, staged, boardOk. simpl. split_and!; done.
    + injection Hshape as -> _. apply Forall_cons in Hbatches as [Hb _].
      unfold isBatch in Hb. by rewrite Hact in Hb.
Qed.

Lemma reachable_Inv (w : World) : reachable w → Inv w.
Proof.
  induction 1 as [|w e _ IH]; [apply Inv_init|].
  destruct e as [q r now| |hex| |]; simpl.
  - rewrite handleClick_placeTile. by apply Inv_placeTile.
  - by apply Inv_fireTimer.
  - exact IH.
  - exact IH.
  - exact IH.
Qed.

(** ** Sessions with restarts between the games *)

(** A reset while no flip is staged starts from a reachable world: the
    initial one, up to the debug switch. *)
Lemma reachable_resetGame (w : World) :
  reachable w → isAnimating (gameState w) = false → reachable (resetGame w).
Proof.
  intros (_ & _ & Hst & _)%reachable_Inv Han.
  unfold staged in Hst. rewrite Han in Hst.
  unfold resetGame. rewrite Hst.
  destruct (debugMode (gameState w)).
  - apply (reachable_step initialWorld ToggleDebug). constructor.
  - constructor.
Qed.

Lemma session_Play (w : World) (es : list Event) :
  session w (map Play es) = run w es.
Proof.
  unfold session, run. revert w.
  induction es as [|e es IH]; intros w; [done|]. cbn [map foldl]. apply IH.
Qed.

(** A session whose restarts all come while no animation is running
    only visits worlds that a single game reaches. *)
Lemma session_reachable (w : World) (ins : list Input) :
  reachable w → idleRestarts w ins = true → reachable (session w ins).
Proof.
  unfold session. revert w.
  induction ins as [|i ins IH]; intros w Hreach Hidle; [done|].
  cbn [idleRestarts] in Hidle. apply andb_true_iff in Hidle as [Hi Hidle].
  cbn [foldl]. apply IH; [|done].
  destruct i as [e|]; cbn [stepInput].
  - by constructor.
  - apply reachable_resetGame; [done|]. by apply negb_true_iff.
Qed.

(** ** Counting the tiles *)

Lemma countTiles_spec (t : Tiles) :
  countTiles t =
  (length (getPlayerTiles t WHITE), length (getPlayerTiles t BLACK)).
Proof.
  unfold countTiles, getPlayerTiles, JsMap.values.
  rewrite !length_map.
  assert (Hgen : ∀ (l : Tiles) (a b : nat),
    foldl
      (fun c player =>
         match player with
         | WHITE => (S (fst c), snd c)
         | BLACK => (fst c, S (snd c))
         end) (a, b) (map snd l)
    = ((a + length (filter (fun e => snd e = WHITE) l))%nat,
       (b + length (filter (fun e => snd e = BLACK) l))%nat)).
  { induction l as [|[c pl] l IH]; intros a b.
    - simpl. f_equal; lia.
    - destruct pl; cbn [map foldl fst snd]; rewrite IH.
      + rewrite (filter_cons_True (fun e : Hex * Player => snd e = WHITE)),
          (filter_cons_False (fun e : Hex * Player => snd e = BLACK)) by done.
        simpl. by rewrite Nat.add_succ_r.
      + rewrite (filter_cons_False (fun e : Hex * Player => snd e = WHITE)),
          (filter_cons_True (fun e : Hex * Player => snd e = BLACK)) by done.
        simpl. by rewrite Nat.add_succ_r. }
  apply Hgen.
Qed.

Lemma countTiles_total (t : Tiles) :
  (fst (countTiles t) + snd (countTiles t))%nat = length t.
Proof.
  rewrite countTiles_spec. unfold getPlayerTiles. simpl.
  rewrite !length_map.
  induction t as [|[c pl] t IH]; [done|].
  destruct pl.
  - rewrite (filter_cons_True (fun e : Hex * Player => snd e = WHITE)),
      (filter_cons_False (fun e : Hex * Player => snd e = BLACK)) by done.
    simpl. f_equal. exact IH.
  - rewrite (filter_cons_False (fun e : Hex * Player => snd e = WHITE)),
      (filter_cons_True (fun e : Hex * Player => snd e = BLACK)) by done.
    simpl. rewrite Nat.add_succ_r. f_equal. exact IH.
Qed.

(** X22. As long as no restart comes while an animation is running, in
    every world of a session (so after the initialization, after every
    restart and every fully resolved placement, and also between two
    batches of flips), the number of tiles on the board is
    (20 - white supply) + (20 - black supply). *)
Theorem tile_count_idle_restarts (ins : list Input) :
  idleRestarts initialWorld ins = true →
  let w := session initialWorld ins in
  let gs := gameState w in
  let scores := countTiles (tiles gs) in
  Z.of_nat (fst scores + snd scores) =
    (TILES_PER_PLAYER - whiteTilesRemaining gs) +
    (TILES_PER_PLAYER - blackTilesRemaining gs).
Proof.
  intros Hidle w.
  assert (Hreach : reachable w)
    by (apply session_reachable; [constructor | done]).
  clearbody w. clear Hidle ins. revert Hreach.
  intros (_ & _ & _ & Hcount)%reachable_Inv. simpl.
  by rewrite countTiles_total.
Qed.

(** The session with a restart between two games, once the tile at (0,0)
    is placed and its two batches of flips and the end of the animation
    have run: five tiles, all white, supplies 17 and 18. *)
Lemma tile_count_idle_restarts_witness :
  idleRestarts initialWorld resolvedInputs = true ∧
  Z.of_nat
    (fst (countTiles
            (tiles (gameState (session initialWorld resolvedInputs)))) +
     snd (countTiles
            (tiles (gameState (session initialWorld resolvedInputs))))) =
    (TILES_PER_PLAYER -
     whiteTilesRemaining (gameState (session initialWorld resolvedInputs))) +
    (TILES_PER_PLAYER -
     blackTilesRemaining (gameState (session initialWorld resolvedInputs))) ∧
  countTiles (tiles (gameState (session initialWorld resolvedInputs)))
  = (5%nat, 0%nat) ∧
  timers (session initialWorld resolvedInputs) = [].
Proof.
  assert (Hidle : idleRestarts initialWorld resolvedInputs = true)
    by by vm_compute.
  split; [exact Hidle|]. split; [|by vm_compute].
  exact (tile_count_idle_restarts resolvedInputs Hidle).
Defined.

(** C10. A restart during an animation breaks the count.  In the
    bracket position White places at (0,0) and the first batch of flips
    fires; the restart button is clicked; the second batch and the end
    of the animation of the abandoned game fire on the new board; the
    next request, at (-3,3), is accepted (it is Black's, the abandoned
    animation having passed the turn) and captures nothing.  Then no
    timer is pending and no animation is running, one tile has been
    used, and there are two tiles on the board: the abandoned batch has
    written the cell (2,0) of the new board. *)
Theorem tile_count_after_restart :
  let w := session initialWorld restartPlayInputs in
  let gs := gameState w in
  let scores := countTiles (tiles gs) in
  timers w = [] ∧ isAnimating gs = false ∧ gameOver gs = false ∧
  tiles gs = [((2, 0), WHITE); ((-3, 3), BLACK)] ∧
  whiteTilesRemaining gs = 20 ∧ blackTilesRemaining gs = 19 ∧
  Z.of_nat (fst scores + snd scores) = 2 ∧
  (TILES_PER_PLAYER - whiteTilesRemaining gs) +
  (TILES_PER_PLAYER - blackTilesRemaining gs) = 1 ∧
  Z.of_nat (fst scores + snd scores) ≠
    (TILES_PER_PLAYER - whiteTilesRemaining gs) +
    (TILES_PER_PLAYER - blackTilesRemaining gs).
Proof. by vm_compute. Qed.

(** ** The end of the game *)

Lemma modal_finishTurn (w : World) :
  gameOver (gameState w) = false →
  gameOver (gameState (finishTurn w)) = true →
  let scores := countTiles (tiles (gameState (finishTurn w))) in
  modal (finishTurn w) = Some (mkModal (outcomeOf scores) scores).
Proof.
  unfold finishTurn. simpl.
  destruct ((whiteTilesRemaining _ =? 0) && (blackTilesRemaining _ =? 0));
    simpl; [done | congruence].
Qed.

(** A step either leaves [gameOver] as it is, or it ends the turn and is
    a call of [finishTurn]. *)
Lemma step_shape (w : World) (e : Event) :
  (¬ endsTurn w e ∧
   gameOver (gameState (step w e)) = gameOver (gameState w)) ∨
  (endsTurn w e ∧
   ∃ w0, step w e = finishTurn w0 ∧
         gameOver (gameState w0) = gameOver (gameState w)).
Proof.
  destruct e as [q r now| |hex| |]; simpl;
    [rewrite handleClick_placeTile | | left; split; [tauto | done] ..].
  - destruct (decide (rejected w q r)) as [Hr|Hnr].
    + left. rewrite placeTile_rejected by done. split; [tauto | done].
    + rewrite placeTile_accepted by done. cbv zeta. cbn [snd].
      destruct (captureSet _ _ _ _) as [|f flips] eqn:Hflips; simpl.
      * right. split; [done|]. by eexists.
      * left. rewrite gameState_animateFlips. split; [|done].
        intros [_ Hnil]. discriminate Hnil.
  - unfold fireTimer. destruct (timers w) as [|tm rest] eqn:Hts.
    + left. split; [|done]. by intros (tm & rest & ? & _).
    + destruct (action tm) as [flipsAtDist newPlayer|] eqn:Hact; simpl.
      * left. split; [|done].
        intros (tm' & rest' & [= <- <-] & Hfin). congruence.
      * right. split; [by exists tm, rest|]. by eexists.
Qed.

(** C7. The game becomes over exactly in a step that ends the capture
    resolution of a turn with both supplies at zero; once it is over it
    stays over and every placement request is turned down; and when the
    game becomes over, the modal shows the tile counts of the two
    players and a win for the player with strictly more tiles, a tie
    when the counts are equal. *)
Theorem game_over_exactly_at_turn_end :
  (∀ (w : World) (e : Event),
     gameOver (gameState (step w e)) = true ↔
     gameOver (gameState w) = true ∨
     (endsTurn w e ∧
      whiteTilesRemaining (gameState (step w e)) = 0 ∧
      blackTilesRemaining (gameState (step w e)) = 0)) ∧
  (∀ (w : World) (q r now : Z),
     gameOver (gameState w) = true → placeTile w q r now = (false, w)) ∧
  (∀ (w : World) (e : Event),
     gameOver (gameState w) = false →
     gameOver (gameState (step w e)) = true →
     let t := tiles (gameState (step w e)) in
     let white := length (getPlayerTiles t WHITE) in
     let black := length (getPlayerTiles t BLACK) in
     modal (step w e) =
       Some (mkModal
               (if (black <? white)%nat then WhiteWins
                else if (white <? black)%nat then BlackWins
                else Tie)
               (white, black))).
Proof.
  split_and!.
  - intros w e.
    destruct (step_shape w e) as [[Hne Hgo]|(He & w0 & Hstep & Hgo)].
    + rewrite Hgo. tauto.
    + rewrite Hstep.
      destruct (finishTurn_fields w0) as (_ & Hw & Hb & _ & Hover).
      rewrite Hover, Hw, Hb, Hgo.
      rewrite orb_true_iff, andb_true_iff, !Z.eqb_eq. tauto.
  - intros w q r now Hgo. apply placeTile_rejected. by left.
  - intros w e Hgo Hover.
    destruct (step_shape w e) as [[_ Hsame]|(_ & w0 & Hstep & Hgo0)].
    + congruence.
    + rewrite Hstep in *. rewrite <- Hgo0 in Hgo.
      pose proof (modal_finishTurn w0 Hgo Hover) as Hmodal.
      simpl in Hmodal. rewrite Hmodal.
      by rewrite countTiles_spec.
Qed.

(** A whole game: after the fortieth tile both supplies are zero, the
    game is over, Black has 39 tiles against 1, and a further request on
    a free cell is turned down. *)
Example full_game_example :
  reachable fullGameWorld ∧
  gameOver (gameState fullGameWorld) = true ∧
  whiteTilesRemaining (gameState fullGameWorld) = 0 ∧
  blackTilesRemaining (gameState fullGameWorld) = 0 ∧
  timers fullGameWorld = [] ∧
  modal fullGameWorld = Some (mkModal BlackWins (1%nat, 39%nat)) ∧
  placeTile fullGameWorld 0 0 0 = (false, fullGameWorld).
Proof.
  split; [apply reachable_run; constructor|].
  split_and!; by vm_compute.
Qed.

(** ** The cells that a placement changes *)

Lemma tiles_runTimer_finish (w : World) :
  tiles (gameState (runTimer w FinishAnimation)) = tiles (gameState w).
Proof. unfold runTimer. by rewrite tiles_finishTurn. Qed.

Lemma timers_fireTimer (w : World) : timers (fireTimer w) = tail (timers w).
Proof.
  unfold fireTimer. destruct (timers w) as [|tm rest] eqn:Hts; [by rewrite Hts|].
  destruct (action tm); simpl; [done|]. by rewrite timers_finishTurn.
Qed.

(** One timer: a cell keeps its owner unless it is a cell of the batch,
    which goes to the new owner of the batch. *)
Lemma fireTimer_frame (P : Flip → Player → Prop) (w : World) (c : Hex) :
  queueOk P (timers w) →
  occupant (fireTimer w) c = occupant w c ∨
  ∃ f pl, P f pl ∧ flipKey f = c ∧ occupant (fireTimer w) c = Some pl.
Proof.
  unfold occupant, fireTimer. intros Hq.
  destruct (timers w) as [|tm rest]; [by left|].
  apply Forall_cons in Hq as [Htm _].
  destruct (action tm) as [flipsAtDist newPlayer|].
  - simpl. rewrite get_applyBatch.
    destruct (decide (c ∈ map flipKey flipsAtDist)) as [Hin|]; [|by left].
    right. apply list_elem_of_fmap in Hin as (f & -> & Hf).
    exists f, newPlayer. split; [|done].
    rewrite Forall_forall in Htm. by apply Htm.
  - left. by rewrite tiles_runTimer_finish.
Qed.

Lemma queueOk_fireTimer (P : Flip → Player → Prop) (w : World) :
  queueOk P (timers w) → queueOk P (timers (fireTimer w)).
Proof.
  rewrite timers_fireTimer. unfold queueOk.
  destruct (timers w); [done|]. by intros [_ ?]%Forall_cons.
Qed.

Lemma fireTimers_frame (P : Flip → Player → Prop) (n : nat) :
  ∀ (w : World) (c : Hex),
  queueOk P (timers w) →
  occupant (fireTimers n w) c = occupant w c ∨
  ∃ f pl, P f pl ∧ flipKey f = c ∧ occupant (fireTimers n w) c = Some pl.
Proof.
  induction n as [|n IH]; intros w c Hq; simpl; [by left|].
  destruct (IH (fireTimer w) c (queueOk_fireTimer P w Hq)) as [Hsame|Hflip];
    [|by right].
  rewrite Hsame. by apply fireTimer_frame.
Qed.

(** Once every timer of the queue has fired, each cell of each batch
    belongs to the new owner (all the batches flipping to [p]). *)
Lemma fireTimers_all (p : Player) (n : nat) :
  ∀ (w : World) (tm : Timer) (flipsAtDist : list Flip) (f : Flip),
  queueOk (fun _ pl => pl = p) (timers w) →
  (length (timers w) <= n)%nat →
  tm ∈ timers w → action tm = FlipBatch flipsAtDist p → f ∈ flipsAtDist →
  occupant (fireTimers n w) (flipKey f) = Some p.
Proof.
  induction n as [|n IH]; intros w tm flipsAtDist f Hq Hn Htm Hact Hf.
  - destruct (timers w) as [|tm0 rest] eqn:Hts;
      [by apply elem_of_nil in Htm | simpl in Hn; lia].
  - simpl. destruct (timers w) as [|tm0 rest] eqn:Hts;
      [by apply elem_of_nil in Htm|].
    apply elem_of_cons in Htm as [-> | Htm].
    + destruct (fireTimers_frame (fun _ pl => pl = p) n (fireTimer w)
                  (flipKey f)) as [Hsame|(_ & pl & -> & _ & Hpl)];
        [apply queueOk_fireTimer; by rewrite Hts | | done].
      rewrite Hsame. unfold occupant, fireTimer. rewrite Hts, Hact. simpl.
      rewrite get_applyBatch, decide_True; [done|].
      apply list_elem_of_fmap. by exists f.
    + apply (IH (fireTimer w) tm flipsAtDist f); try done.
      * apply queueOk_fireTimer. by rewrite Hts.
      * rewrite timers_fireTimer, Hts. simpl in *. lia.
      * by rewrite timers_fireTimer, Hts.
Qed.

(** Every flip handed to [animateFlips] sits in one of the batches. *)
Lemma animateFlips_covers (w : World) (flips : list Flip) (p : Player)
  (f : Flip) :
  f ∈ flips →
  ∃ tm flipsAtDist,
    tm ∈ timers (animateFlips w flips p) ∧
    action tm = FlipBatch flipsAtDist p ∧ f ∈ flipsAtDist.
Proof.
  intros Hf. unfold animateFlips.
  pose proof (scheduleBatches_spec
    (sortZ (JsMap.keys (groupByDistance (sortByDistance flips))))
    (groupByDistance (sortByDistance flips)) p 0) as Hs.
  destruct (scheduleBatches _ _ _ _) as [batches d]. simpl in *.
  destruct Hs as (_ & Ha & _).
  assert (Hgroup : f ∈ default []
            (JsMap.get (groupByDistance (sortByDistance flips)) (distance f))).
  { apply groupByDistance_spec. split; [|done].
    by apply elem_of_sortByDistance. }
  assert (Hdist : distance f ∈
            sortZ (JsMap.keys (groupByDistance (sortByDistance flips)))).
  { apply elem_of_sortZ, JsMapFacts.get_is_Some.
    destruct (JsMap.get _ (distance f)); [done|].
    by apply elem_of_nil in Hgroup. }
  assert (Hact : FlipBatch
            (default [] (JsMap.get (groupByDistance (sortByDistance flips))
                           (distance f))) p ∈ map action batches).
  { rewrite Ha. apply list_elem_of_fmap. by exists (distance f). }
  apply list_elem_of_fmap in Hact as (tm & Hact & Htm).
  exists tm, (default [] (JsMap.get (groupByDistance (sortByDistance flips))
                           (distance f))).
  split_and!; [|done|done].
  apply elem_of_app. right. apply elem_of_app. by left.
Qed.

Lemma accepted_not_rejected (w : World) (q r now : Z) :
  fst (placeTile w q r now) = true → ¬ rejected w q r.
Proof.
  intros Hacc Hr. rewrite placeTile_rejected in Hacc by done. discriminate.
Qed.

(** The queue right after an accepted request of a reachable world: only
    flips of the capture set, all going to the placing player. *)
Lemma placeTile_queue (w : World) (q r now : Z) :
  reachable w → ¬ rejected w q r →
  let p := currentPlayer (gameState w) in
  queueOk (fun f pl => f ∈ captureSet (tiles (gameState w)) q r p ∧ pl = p)
    (timers (snd (placeTile w q r now))).
Proof.
  intros (_ & _ & Hst & _)%reachable_Inv Hnr.
  rewrite placeTile_accepted by done. cbv zeta. cbn [snd].
  assert (Hts : timers w = []).
  { unfold staged in Hst. unfold rejected in Hnr. cbv zeta in Hnr.
    destruct (isAnimating (gameState w)); [tauto | done]. }
  destruct (0 <? length _)%nat.
  - destruct (animateFlips_timers
                (mkWorld (putTile (gameState w) q r now) (timers w) (modal w))
                (captureSet (tiles (gameState w)) q r
                   (currentPlayer (gameState w)))
                (currentPlayer (gameState w)))
      as (batches & -> & _ & Hq & _).
    simpl. rewrite Hts. simpl.
    apply queueOk_app. split; [done | by repeat constructor].
  - rewrite timers_finishTurn. simpl. rewrite Hts. constructor.
Qed.

(** X21. As long as no restart comes while an animation is running:
    after an accepted request in a world of a session, and after any
    number of timers of its resolution, the placed cell was empty and
    belongs to the placing player; any other cell whose owner differs
    from the one before the request is a cell of the capture set, was
    the opponent's before the request and when the capture set was
    computed, and now belongs to the placing player; so the cells of the
    placing player and the other empty cells are as they were.  Once all
    the timers have fired, every cell of the capture set belongs to the
    placing player. *)
Theorem placement_frame_idle_restarts (ins : list Input) (q r now : Z)
  (n : nat) (c : Hex) :
  idleRestarts initialWorld ins = true →
  let w := session initialWorld ins in
  fst (placeTile w q r now) = true →
  let p := currentPlayer (gameState w) in
  let placed := snd (placeTile w q r now) in
  let captured := map flipKey (captureSet (tiles (gameState w)) q r p) in
  let after := occupant (fireTimers n placed) c in
  (c = (q, r) → occupant w c = None ∧ after = Some p) ∧
  (c ≠ (q, r) → after ≠ occupant w c →
   c ∈ captured ∧ occupant w c = Some (other p) ∧
   occupant placed c = Some (other p) ∧ after = Some p) ∧
  (occupant w c = Some p → after = Some p) ∧
  (c ≠ (q, r) → occupant w c = None → after = None) ∧
  (c ∈ captured → (length (timers placed) <= n)%nat → after = Some p).
Proof.
  intros Hidle w.
  assert (Hreach : reachable w)
    by (apply session_reachable; [constructor | done]).
  clearbody w. clear Hidle ins. revert Hreach.
  intros Hreach Hacc p placed captured after.
  pose proof (accepted_not_rejected w q r now Hacc) as Hnr.
  pose proof (reachable_Inv w Hreach) as ([Hnd _] & _).
  pose proof (placeTile_queue w q r now Hreach Hnr) as Hq.
  destruct (placeTile_accepted_state w q r now Hnr) as (Htiles & _).
  fold p placed in Hq, Htiles.
  assert (Hplaced : occupant placed c =
            if decide ((q, r) = c) then Some p else occupant w c).
  { unfold occupant. rewrite Htiles. apply JsMapFacts.get_set. }
  assert (Hfree : occupant w (q, r) = None).
  { unfold occupant. apply JsMapFacts.get_None, JsMapFacts.has_false.
    unfold rejected in Hnr. cbv zeta in Hnr. unfold hexKey in Hnr.
    destruct (JsMap.has (tiles (gameState w)) (q, r)); [|done].
    exfalso. apply Hnr. do 3 right. by left. }
  assert (Hframe : after = occupant placed c ∨
            ∃ f, f ∈ captureSet (tiles (gameState w)) q r p ∧
                 flipKey f = c ∧ after = Some p).
  { destruct (fireTimers_frame _ n placed c Hq)
      as [Hsame|(f & pl & [Hf ->] & Hkey & Hafter)]; [by left|].
    right. by exists f. }
  assert (Hcases : c ≠ (q, r) → after ≠ occupant w c →
            c ∈ captured ∧ occupant w c = Some (other p) ∧
            occupant placed c = Some (other p) ∧ after = Some p).
  { intros Hne Hchanged. rewrite decide_False in Hplaced by done.
    destruct Hframe as [Hsame|(f & Hf & Hkey & Hafter)]; [congruence|].
    destruct (captureSet_flips _ q r p f Hnd Hf) as [_ Hopp].
    rewrite Hkey in Hopp. split_and!; [|done|by rewrite Hplaced|done].
    apply list_elem_of_fmap. by exists f. }
  split_and!.
  - intros ->. split; [done|]. rewrite decide_True in Hplaced by done.
    destruct Hframe as [->|(f & _ & _ & ->)]; done.
  - done.
  - intros Hown. destruct (decide (c = (q, r))) as [->|Hne]; [congruence|].
    destruct (decide (after = occupant w c)) as [->|Hchanged]; [done|].
    by destruct (Hcases Hne Hchanged) as (_ & _ & _ & ->).
  - intros Hne Hempty.
    destruct (decide (after = occupant w c)) as [->|Hchanged]; [done|].
    destruct (Hcases Hne Hchanged) as (_ & Hopp & _). congruence.
  - intros (f & -> & Hf)%list_elem_of_fmap Hn.
    assert (Hanim : placed =
              animateFlips
                (mkWorld (putTile (gameState w) q r now) (timers w) (modal w))
                (captureSet (tiles (gameState w)) q r p) p).
    { unfold placed. rewrite placeTile_accepted by done. cbv zeta. cbn [snd].
      fold p. destruct (captureSet _ _ _ _); [|done].
      by apply elem_of_nil in Hf. }
    destruct (animateFlips_covers
                (mkWorld (putTile (gameState w) q r now) (timers w) (modal w))
                _ p f Hf) as (tm & flipsAtDist & Htm & Hact & Hin).
    rewrite <- Hanim in Htm.
    apply (fireTimers_all p n placed tm flipsAtDist f); try done.
    eapply queueOk_impl; [|exact Hq]. by intros ? ? [_ ->].
Qed.

(** The bracket position of the session with a restart between two
    games: three timers after the tile of White at (0,0), the black tile
    at (2,0) has become white. *)
Lemma placement_frame_idle_restarts_witness :
  idleRestarts initialWorld idleInputs = true ∧
  occupant
    (fireTimers 3 (snd (placeTile (session initialWorld idleInputs) 0 0 0)))
    (2, 0)
  = Some WHITE.
Proof.
  assert (Hidle : idleRestarts initialWorld idleInputs = true)
    by by vm_compute.
  split; [exact Hidle|].
  assert (Hacc : fst (placeTile (session initialWorld idleInputs) 0 0 0)
                 = true) by by vm_compute.
  pose proof (placement_frame_idle_restarts idleInputs 0 0 0 3 (2, 0)
                Hidle Hacc) as Hframe.
  cbv zeta in Hframe. destruct Hframe as (_ & _ & _ & _ & Hall).
  apply Hall.
  - vm_compute. right. left.
  - vm_compute. lia.
Defined.


(** ** The string keys determine the cell *)

Module KeyFacts.

Lemma commaFree_pretty_N_go (x : N) (s : string) :
  commaFree s → commaFree (pretty_N_go x s).
Proof.
  revert s. induction (N.lt_wf_0 x) as [x _ IH]; intros s Hs.
  destruct (decide (x = 0)%N) as [->|Hx]; [done|].
  rewrite pretty_N_go_step by lia. apply IH.
  - apply N.div_lt; lia.
  - split; [|done]. unfold pretty_N_char. by repeat case_match.
Qed.

Lemma commaFree_pretty_N (x : N) : commaFree (pretty x).
Proof.
  unfold pretty, pretty_N. case_decide; [by split|].
  by apply commaFree_pretty_N_go.
Qed.

Lemma commaFree_pretty_Z (x : Z) : commaFree (pretty x).
Proof.
  destruct x as [|x|x]; unfold pretty, pretty_Z.
  - by split.
  - apply commaFree_pretty_N.
  - split; [done|]. apply commaFree_pretty_N.
Qed.

(** Two strings without comma followed by a comma: the first comma of
    the whole tells where they end. *)
Lemma append_comma_inj (s1 s2 t1 t2 : string) :
  commaFree s1 → commaFree s2 →
  s1 +:+ String "," t1 = s2 +:+ String "," t2 → s1 = s2 ∧ t1 = t2.
Proof.
  revert s2. induction s1 as [|c1 s1 IH]; intros [|c2 s2]; simpl.
  - intros _ _ [= ->]. done.
  - intros _ [Hc _] [= <- _]. done.
  - intros [Hc _] _ [= -> _]. done.
  - intros [_ H1] [_ H2] [= -> Heq].
    destruct (IH s2 H1 H2 Heq) as [-> ->]. done.
Qed.

Lemma hexKeyString_inj (q1 r1 q2 r2 : Z) :
  hexKeyString q1 r1 = hexKeyString q2 r2 → hexKey q1 r1 = hexKey q2 r2.
Proof.
  unfold hexKeyString, hexKey. intros Heq.
  apply append_comma_inj in Heq as [Hq Hr];
    [|apply commaFree_pretty_Z..].
  apply (inj pretty) in Hq. apply (inj pretty) in Hr. by subst.
Qed.

Example hexKeyString_example : hexKeyString (-3) 12 = "-3,12".
Proof. reflexivity. Qed.

End KeyFacts.

(** ** [flipTiles] and [resetGame] *)

Lemma applyBatch_flipTiles (t : Tiles) (flips : list Flip) (p : Player) :
  applyBatch t flips p = flipTiles t (map flipKey flips) p.
Proof.
  unfold applyBatch, flipTiles. revert t.
  induction flips as [|f flips IH]; intros t; [done|]. simpl. apply IH.
Qed.

(** Flipping tiles that are on the board keeps the cells of the board,
    hence the number of tiles. *)
Lemma keys_flipTiles (t : Tiles) (tilesToFlip : list Hex) (p : Player) :
  Forall (fun c => c ∈ JsMap.keys t) tilesToFlip →
  JsMap.keys (flipTiles t tilesToFlip p) = JsMap.keys t.
Proof.
  unfold flipTiles. revert t.
  induction tilesToFlip as [|c l IH]; intros t Hall; simpl; [done|].
  apply Forall_cons in Hall as [Hc Hall]. unfold hexKey.
  rewrite <- surjective_pairing.
  rewrite IH; rewrite JsMapFacts.keys_set_present; done.
Qed.

(** [resetGame] does not clear the timers: after a reset in the middle of
    the animation of the bracket position, the two pending batches write
    on the new board and the end of the animation passes the turn. *)
Example resetGame_pending_timers :
  let w := fireTimers 3 (resetGame (snd (placeTile bracketWorld 0 0 0))) in
  tiles (gameState w) = [((1, 0), WHITE); ((2, 0), WHITE)] ∧
  whiteTilesRemaining (gameState w) = 20 ∧
  blackTilesRemaining (gameState w) = 20 ∧
  currentPlayer (gameState w) = BLACK.
Proof. by vm_compute. Qed.

(** ** The cells of the board and their neighbours *)

Lemma elem_of_getAllValidHexes (h : Hex) :
  h ∈ getAllValidHexes ↔ validHex h.
Proof.
  unfold getAllValidHexes, validHex. rewrite list_elem_of_bind. split.
  - intros (q & (r & Hh & _)%list_elem_of_bind & _).
    destruct (isValidHex q r) eqn:Hv; [|by apply elem_of_nil in Hh].
    by apply list_elem_of_singleton in Hh as ->.
  - destruct h as [q r]. cbn [fst snd]. intros Hv.
    pose proof (proj1 (isValidHex_bounds q r) Hv) as Hb.
    exists q. split; [|apply elem_of_seqZ; unfold GRID_SIZE; lia].
    apply list_elem_of_bind. exists r.
    split; [|apply elem_of_seqZ; unfold GRID_SIZE; lia].
    rewrite Hv. left.
Qed.

(** X1. [getAllValidHexes] lists exactly the coordinates accepted by
    [isValidHex], each of them once: the 169 cells of the board. *)
Theorem getAllValidHexes_spec :
  (∀ h, h ∈ getAllValidHexes ↔ isValidHex (fst h) (snd h) = true) ∧
  NoDup getAllValidHexes ∧
  length getAllValidHexes = 169%nat.
Proof.
  split_and!.
  - apply elem_of_getAllValidHexes.
  - apply (bool_decide_unpack _). by vm_compute.
  - by vm_compute.
Qed.

Lemma elem_of_getNeighbors (q r : Z) (h : Hex) :
  h ∈ getNeighbors q r ↔
  validHex h ∧ ∃ d, d ∈ directions ∧ h = (q + fst d, r + snd d).
Proof.
  unfold getNeighbors.
  by rewrite list_elem_of_filter, elem_of_getSurroundingHexes.
Qed.

(** Every cell of the board has at least three neighbours on the board
    (checked on the 169 cells). *)
Lemma getNeighbors_at_least_3 (q r : Z) :
  validHex (q, r) → (3 <= length (getNeighbors q r))%nat.
Proof.
  intros Hv%elem_of_getAllValidHexes.
  assert (Hall : Forall
            (fun h => (3 <= length (getNeighbors (fst h) (snd h)))%nat)
            getAllValidHexes).
  { apply (bool_decide_unpack _). by vm_compute. }
  rewrite Forall_forall in Hall. apply (Hall (q, r) Hv).
Qed.

(** X2. On the board, adjacency as [getNeighbors] computes it is
    irreflexive and symmetric, and a cell has between three and six
    neighbours. *)
Theorem getNeighbors_adjacency (q r : Z) :
  validHex (q, r) →
  (3 <= length (getNeighbors q r))%nat ∧
  (length (getNeighbors q r) <= 6)%nat ∧
  ((q, r) ∉ getNeighbors q r) ∧
  ∀ h, h ∈ getNeighbors q r → (q, r) ∈ getNeighbors (fst h) (snd h).
Proof.
  intros Hv. split_and!.
  - by apply getNeighbors_at_least_3.
  - apply length_getNeighbors.
  - intros (_ & d & Hd & Heq)%elem_of_getNeighbors.
    each_direction Hd; injection Heq; simpl; lia.
  - intros h (_ & d & Hd & ->)%elem_of_getNeighbors.
    apply elem_of_getNeighbors. split; [done|]. simpl.
    each_direction Hd; simpl.
    + exists (-1, 0). split; [set_solver | f_equal; simpl; lia].
    + exists (-1, 1). split; [set_solver | f_equal; simpl; lia].
    + exists (0, 1). split; [set_solver | f_equal; simpl; lia].
    + exists (1, 0). split; [set_solver | f_equal; simpl; lia].
    + exists (1, -1). split; [set_solver | f_equal; simpl; lia].
    + exists (0, -1). split; [set_solver | f_equal; simpl; lia].
Qed.

(** The corner (7,0) has three neighbours. *)
Lemma getNeighbors_adjacency_witness :
  (3 <= length (getNeighbors 7 0))%nat ∧ ((7, 0) ∉ getNeighbors 7 0).
Proof.
  assert (Hv : validHex (7, 0)) by reflexivity.
  destruct (getNeighbors_adjacency 7 0 Hv) as (Hlen & _ & Hirr & _).
  by split.
Defined.

Lemma isTileSurrounded_getNeighbors (q r : Z) (zoc : gset Hex) :
  isTileSurrounded q r zoc = true ↔
  ∀ h, h ∈ getNeighbors q r → h ∈ zoc.
Proof.
  unfold isTileSurrounded. rewrite surroundedLoop_true. split.
  - intros Hall h [Hv Hh]%list_elem_of_filter.
    destruct (Hall h Hh) as [Hinv|?]; [|done].
    unfold validHex in Hv. congruence.
  - intros Hall h Hh.
    destruct (isValidHex (fst h) (snd h)) eqn:Hv; [right | by left].
    apply Hall. by apply list_elem_of_filter.
Qed.

(** X3. The surround test in terms of [getNeighbors]: a tile is
    surrounded exactly when all its neighbours on the board are in the
    enemy zone; since a cell of the board has neighbours, a tile on the
    board is never surrounded by an empty zone. *)
Theorem isTileSurrounded_neighbors (q r : Z) (enemyZOC : gset Hex) :
  (isTileSurrounded q r enemyZOC = true ↔
   ∀ h, h ∈ getNeighbors q r → h ∈ enemyZOC) ∧
  (isValidHex q r = true → isTileSurrounded q r ∅ = false).
Proof.
  split; [apply isTileSurrounded_getNeighbors|]. intros Hv.
  apply not_true_is_false. rewrite isTileSurrounded_getNeighbors.
  intros Hall.
  pose proof (getNeighbors_at_least_3 q r Hv) as Hlen.
  destruct (getNeighbors q r) as [|h l]; [simpl in Hlen; lia|].
  specialize (Hall h ltac:(left)). set_solver.
Qed.

(** ** The straight lines of the surround rule *)

Section StraightLines.
Variables (t : Tiles) (q r : Z) (pl : Player) (d : Hex).
Hypothesis Hd : d ∈ directions.

(** The scan only appends to [tilesToFlip]. *)
Lemma straightLine_acc (fuel : nat) :
  ∀ (q0 r0 : Z) (acc : list Hex),
  straightLine fuel t pl d q0 r0 acc =
  (fun l => acc ++ l) <$> straightLine fuel t pl d q0 r0 [].
Proof.
  induction fuel as [|fuel IH]; intros q0 r0 acc; [done|]. simpl.
  destruct (isValidHex q0 r0); [|simpl; by rewrite app_nil_r].
  destruct (decide (JsMap.get t (hexKey q0 r0) = Some pl));
    [|simpl; by rewrite app_nil_r].
  rewrite (IH _ _ (acc ++ [(q0, r0)])), (IH _ _ [(q0, r0)]).
  destruct (straightLine fuel t pl d (q0 + fst d) (r0 + snd d) []); simpl;
    [|done].
  by rewrite <- app_assoc.
Qed.

Lemma straightLine_at_ray (fuel k : nat) :
  straightLine (S fuel) t pl d (fst (ray q r d k)) (snd (ray q r d k)) [] =
  if decide (ownAt t pl (ray q r d k)) then
    (fun l => ray q r d k :: l) <$>
    straightLine fuel t pl d (fst (ray q r d (S k)))
      (snd (ray q r d (S k))) []
  else Some [].
Proof.
  replace (Z.of_nat (S k)) with (Z.of_nat k + 1) by lia.
  rewrite ray_step. cbn [straightLine]. unfold hexKey.
  rewrite <- surjective_pairing.
  destruct (decide (ownAt t pl (ray q r d k))) as [[Hv Ho]|Hno].
  - unfold validHex in Hv. rewrite Hv. rewrite decide_True by done.
    by rewrite straightLine_acc.
  - destruct (isValidHex _ _) eqn:Hv; [|done].
    rewrite decide_False; [done|]. intros ?. apply Hno. by split.
Qed.

Lemma straightLine_run (n : nat) :
  ∀ (fuel k : nat),
  (∀ j : nat, (k <= j < k + n)%nat → ownAt t pl (ray q r d j)) →
  ¬ ownAt t pl (ray q r d (k + n)%nat) →
  (n < fuel)%nat →
  straightLine fuel t pl d (fst (ray q r d k)) (snd (ray q r d k)) [] =
  Some (map (fun j : nat => ray q r d j) (seq k n)).
Proof.
  induction n as [|n IH]; intros fuel k Hrun Hstop Hfuel.
  - destruct fuel as [|fuel]; [lia|].
    rewrite straightLine_at_ray. rewrite Nat.add_0_r in Hstop.
    by rewrite decide_False.
  - destruct fuel as [|fuel]; [lia|].
    rewrite straightLine_at_ray.
    rewrite decide_True by (apply Hrun; lia).
    rewrite IH; [done | | | lia].
    + intros j Hj. apply Hrun. lia.
    + by replace (S k + n)%nat with (k + S n)%nat by lia.
Qed.

Lemma straightRun_total (fuel : nat) (acc : list Hex) :
  (scanFuel <= fuel)%nat →
  straightLine fuel t pl d (q + fst d) (r + snd d) acc
  = Some (acc ++ straightRun t q r pl d).
Proof.
  intros Hfuel.
  destruct (straightLine_total t pl d Hd (q + fst d) (r + snd d) [])
    as [l Hl].
  unfold straightRun. rewrite straightLine_acc, (Hl fuel Hfuel).
  by rewrite (Hl scanFuel).
Qed.

Lemma straightRun_of_run (n : nat) :
  (∀ k : nat, (1 <= k <= n)%nat → ownAt t pl (ray q r d k)) →
  ¬ ownAt t pl (ray q r d (S n)) →
  straightRun t q r pl d = rayCells q r d n.
Proof.
  intros Hrun Hstop.
  assert (Hn := straightLine_run n (S n + scanFuel) 1).
  assert (Hray : ray q r d 1%nat = (q + fst d, r + snd d)).
  { unfold ray. f_equal; lia. }
  rewrite Hray in Hn.
  specialize (Hn ltac:(intros j Hj; apply Hrun; lia) Hstop ltac:(lia)).
  cbn [fst snd] in Hn.
  rewrite straightRun_total in Hn by lia. by injection Hn.
Qed.

End StraightLines.

Lemma getTilesInStraightLines_directions (t : Tiles) (q r : Z)
  (pl : Player) :
  getTilesInStraightLines t q r pl =
  concat (map (straightRun t q r pl) directions).
Proof.
  unfold getTilesInStraightLines.
  assert (Hgen : ∀ (dirs : list Hex) (acc : list Hex),
    (∀ d, d ∈ dirs → d ∈ directions) →
    foldl
      (fun tilesToFlip dir =>
         default tilesToFlip
           (straightLine scanFuel t pl dir (q + fst dir) (r + snd dir)
              tilesToFlip)) acc dirs
    = acc ++ concat (map (straightRun t q r pl) dirs)).
  { induction dirs as [|d dirs IH]; intros acc Hdirs; cbn [foldl map concat].
    - by rewrite app_nil_r.
    - rewrite straightRun_total; [|apply Hdirs; left|done].
      cbn [default]. rewrite IH; [by rewrite app_assoc|].
      intros d' Hd'. apply Hdirs. by right. }
  by apply Hgen.
Qed.

(** X4. In each direction [getTilesInStraightLines] takes the maximal
    run of tiles of the given player that starts next to the starting
    cell and stops at the first cell that is empty, of the other player
    or off the board; the scan ends within [scanFuel] iterations, and the
    result is the concatenation of the runs of the six directions. *)
Theorem straightLines_per_direction (t : Tiles) (q r : Z) (pl : Player)
  (d : Hex) (n : nat) :
  d ∈ directions →
  (∀ k : nat, (1 <= k <= n)%nat → ownAt t pl (ray q r d k)) →
  ¬ ownAt t pl (ray q r d (S n)) →
  straightRun t q r pl d = rayCells q r d n ∧
  (∀ fuel acc, (scanFuel <= fuel)%nat →
     straightLine fuel t pl d (q + fst d) (r + snd d) acc
     = Some (acc ++ straightRun t q r pl d)) ∧
  getTilesInStraightLines t q r pl =
    concat (map (straightRun t q r pl) directions).
Proof.
  intros Hd Hrun Hstop. split_and!.
  - by apply straightRun_of_run.
  - intros fuel acc Hfuel. by apply straightRun_total.
  - apply getTilesInStraightLines_directions.
Qed.

(** The bracket position: east of the black tile (1,0) the run of black
    tiles is the single cell (2,0). *)
Lemma straightLines_per_direction_witness :
  straightRun (tiles (gameState bracketWorld)) 1 0 BLACK (1, 0) = [(2, 0)].
Proof.
  destruct (straightLines_per_direction
              (tiles (gameState bracketWorld)) 1 0 BLACK (1, 0) 1)
    as (Hrun & _ & _).
  - left.
  - intros k Hk. assert (Hk1 : k = 1%nat) by lia. subst k. by vm_compute.
  - intros [_ Hown]. vm_compute in Hown. discriminate Hown.
  - rewrite Hrun. by vm_compute.
Defined.

(** ** The flips of the surround rule *)

Lemma getSurroundedFlips_concat (t : Tiles) (p : Player) :
  getSurroundedFlips t p =
  concat (map (surroundFlipsOf t p) (surroundedTiles t p)).
Proof.
  unfold getSurroundedFlips, surroundedTiles.
  assert (Hgen : ∀ (defending : list Hex) (acc : list Flip),
    foldl
      (fun flips tile =>
         if isTileSurrounded (fst tile) (snd tile) (calculateZOC t p) then
           (flips ++ [mkFlip (fst tile) (snd tile) 1]) ++
           imap (fun idx lt => mkFlip (fst lt) (snd lt) (Z.of_nat idx + 2))
             (getTilesInStraightLines t (fst tile) (snd tile) (other p))
         else flips) acc defending
    = acc ++ concat (map (surroundFlipsOf t p)
        (filter
           (fun tile =>
              isTileSurrounded (fst tile) (snd tile) (calculateZOC t p)
              = true) defending))).
  { induction defending as [|tile defending IH]; intros acc; cbn [foldl].
    - by rewrite app_nil_r.
    - rewrite IH.
      destruct (isTileSurrounded (fst tile) (snd tile) (calculateZOC t p))
        eqn:Hs.
      + rewrite filter_cons_True by done. cbn [map concat].
        unfold surroundFlipsOf at 2. by rewrite <- !app_assoc.
      + rewrite filter_cons_False; [done|]. congruence. }
  apply Hgen.
Qed.

(** X5. The surround rule: the flips are, for each tile of the defending
    player whose neighbours on the board all lie in the zone of the
    attacking player (in map order), that tile with rank 1 followed by
    the tiles of its straight lines with ranks 2, 3, ... in the order
    [getTilesInStraightLines] lists them; when no defending tile is
    surrounded there is no flip. *)
Theorem getSurroundedFlips_spec (t : Tiles) (p : Player) :
  getSurroundedFlips t p =
    concat (map (surroundFlipsOf t p) (surroundedTiles t p)) ∧
  (∀ tile, tile ∈ surroundedTiles t p ↔
     (tile, other p) ∈ t ∧
     ∀ h, h ∈ getNeighbors (fst tile) (snd tile) → h ∈ calculateZOC t p) ∧
  (∀ f, f ∈ getSurroundedFlips t p ↔
     ∃ tile, tile ∈ surroundedTiles t p ∧
       (f = mkFlip (fst tile) (snd tile) 1 ∨
        ∃ (idx : nat) lt,
          getTilesInStraightLines t (fst tile) (snd tile) (other p) !! idx
          = Some lt ∧
          f = mkFlip (fst lt) (snd lt) (Z.of_nat idx + 2))).
Proof.
  split_and!.
  - apply getSurroundedFlips_concat.
  - intros tile. unfold surroundedTiles.
    rewrite list_elem_of_filter, elem_of_getPlayerTiles.
    rewrite isTileSurrounded_getNeighbors. tauto.
  - intros f. rewrite getSurroundedFlips_concat, elem_of_concat. split.
    + intros (l & (tile & -> & Htile)%list_elem_of_fmap & Hf).
      exists tile. split; [done|]. unfold surroundFlipsOf in Hf.
      apply elem_of_cons in Hf as [-> | Hf]; [by left | right].
      apply elem_of_lookup_imap in Hf as (idx & lt & -> & Hlt).
      by exists idx, lt.
    + intros (tile & Htile & Hf). exists (surroundFlipsOf t p tile). split.
      * apply list_elem_of_fmap. by exists tile.
      * unfold surroundFlipsOf. destruct Hf as [-> | (idx & lt & Hlt & ->)];
          [left | right].
        apply elem_of_lookup_imap. by exists idx, lt.
Qed.

(** ** The schedule of an animation *)

(** The sort is stable: the flips of one rank keep their order. *)
Lemma flipsAt_insertByDistance (g : Flip) (s : list Flip) (d : Z) :
  flipsAt (insertByDistance g s) d =
  if decide (distance g = d) then g :: flipsAt s d else flipsAt s d.
Proof.
  unfold flipsAt. destruct (decide (distance g = d)) as [Hg|Hg].
  - induction s as [|h s IH]; simpl.
    + by rewrite filter_cons_True.
    + destruct (distance h <? distance g) eqn:Hlt.
      * apply Z.ltb_lt in Hlt.
        rewrite !(filter_cons_False _ h) by lia. apply IH.
      * by rewrite (filter_cons_True _ g).
  - induction s as [|h s IH]; simpl.
    + by rewrite filter_cons_False.
    + destruct (distance h <? distance g) eqn:Hlt.
      * destruct (decide (distance h = d)) as [Hh|Hh].
        -- rewrite !(filter_cons_True _ h) by done. by rewrite IH.
        -- rewrite !(filter_cons_False _ h) by done. apply IH.
      * by rewrite (filter_cons_False _ g).
Qed.

Lemma flipsAt_sortByDistance (flips : list Flip) (d : Z) :
  flipsAt (sortByDistance flips) d = flipsAt flips d.
Proof.
  unfold sortByDistance. induction flips as [|g flips IH]; [done|].
  simpl. rewrite flipsAt_insertByDistance, IH. unfold flipsAt.
  destruct (decide (distance g = d)).
  - by rewrite filter_cons_True.
  - by rewrite filter_cons_False.
Qed.

Lemma flipsAt_nil_iff (flips : list Flip) (d : Z) :
  flipsAt flips d ≠ [] ↔ ∃ f, f ∈ flips ∧ distance f = d.
Proof.
  unfold flipsAt. split.
  - destruct (filter _ flips) as [|f l] eqn:Hf; [done|]. intros _.
    assert (Hin : f ∈ filter (fun f => distance f = d) flips)
      by (rewrite Hf; left).
    apply list_elem_of_filter in Hin as [? ?]. by exists f.
  - intros (f & Hf & Hd) Hnil.
    assert (Hin : f ∈ filter (fun f => distance f = d) flips)
      by by apply list_elem_of_filter.
    rewrite Hnil in Hin. by apply elem_of_nil in Hin.
Qed.

(** The groups, with the order inside each group. *)
Lemma groupByDistance_get (flips : list Flip) (d : Z) :
  default [] (JsMap.get (groupByDistance flips) d) = flipsAt flips d ∧
  (is_Some (JsMap.get (groupByDistance flips) d) ↔ flipsAt flips d ≠ []).
Proof.
  unfold groupByDistance.
  assert (Hgen : ∀ (l : list Flip) (m : JsMap.t Z (list Flip)),
    let m' :=
      foldl
        (fun m flip =>
           let dist := distance flip in
           let m :=
             if negb (JsMap.has m dist) then JsMap.set m dist [] else m in
           JsMap.set m dist (default [] (JsMap.get m dist) ++ [flip]))
        m l in
    default [] (JsMap.get m' d) = default [] (JsMap.get m d) ++ flipsAt l d ∧
    (is_Some (JsMap.get m' d) ↔
     is_Some (JsMap.get m d) ∨ flipsAt l d ≠ [])).
  { induction l as [|g l IH]; intros m; cbn [foldl]; cbv zeta.
    - rewrite app_nil_r. split; [done|]. unfold flipsAt. simpl. tauto.
    - specialize (IH (JsMap.set
        (if negb (JsMap.has m (distance g))
         then JsMap.set m (distance g) [] else m) (distance g)
        (default [] (JsMap.get
           (if negb (JsMap.has m (distance g))
            then JsMap.set m (distance g) [] else m) (distance g))
         ++ [g]))).
      cbv zeta in IH. destruct IH as [IHd IHs]. rewrite IHd, IHs.
      rewrite JsMapFacts.get_set. unfold flipsAt.
      destruct (decide (distance g = d)) as [Hg|Hg].
      + rewrite filter_cons_True by done. subst d.
        assert (Hsame : default [] (JsMap.get
                  (if negb (JsMap.has m (distance g))
                   then JsMap.set m (distance g) [] else m) (distance g))
                = default [] (JsMap.get m (distance g))).
        { unfold JsMap.has.
          destruct (JsMap.get m (distance g)) eqn:Hm; simpl.
          - by rewrite Hm.
          - by rewrite JsMapFacts.get_set_eq. }
        rewrite Hsame. simpl. split; [by rewrite <- app_assoc|].
        split; [intros _; by right | intros _; by left; eexists].
      + rewrite filter_cons_False by done.
        assert (Hsame : JsMap.get
                  (if negb (JsMap.has m (distance g))
                   then JsMap.set m (distance g) [] else m) d
                = JsMap.get m d).
        { destruct (negb _); [|done]. by rewrite JsMapFacts.get_set_ne. }
        by rewrite Hsame. }
  destruct (Hgen flips JsMap.empty) as [Hd Hs]. cbv zeta in Hd, Hs.
  rewrite Hd, Hs. simpl. split; [done|].
  split; [intros [[? [=]]|?]; done | by right].
Qed.

Lemma NoDup_keys_groupByDistance (flips : list Flip) :
  NoDup (JsMap.keys (groupByDistance flips)).
Proof.
  unfold groupByDistance.
  assert (Hgen : ∀ (l : list Flip) (m : JsMap.t Z (list Flip)),
    NoDup (JsMap.keys m) →
    NoDup (JsMap.keys
      (foldl
        (fun m flip =>
           let dist := distance flip in
           let m :=
             if negb (JsMap.has m dist) then JsMap.set m dist [] else m in
           JsMap.set m dist (default [] (JsMap.get m dist) ++ [flip]))
        m l))).
  { induction l as [|g l IH]; intros m Hm; cbn [foldl]; [done|].
    apply IH. cbv zeta. apply JsMapFacts.NoDup_keys_set.
    destruct (negb _); [by apply JsMapFacts.NoDup_keys_set | done]. }
  apply Hgen. constructor.
Qed.

(** Sorting distinct numbers gives a strictly increasing list. *)
Lemma insertZ_sorted (x : Z) (s : list Z) :
  StronglySorted Z.lt s → x ∉ s → StronglySorted Z.lt (insertZ x s).
Proof.
  induction 1 as [|y s Hs IH Hy]; intros Hx; simpl.
  - by repeat constructor.
  - apply not_elem_of_cons in Hx as [Hne Hx].
    destruct (y <? x) eqn:Hlt.
    + apply Z.ltb_lt in Hlt. constructor; [by apply IH|].
      apply Forall_forall. intros z [-> | Hz]%elem_of_insertZ; [done|].
      rewrite Forall_forall in Hy. by apply Hy.
    + apply Z.ltb_ge in Hlt. constructor; [by constructor|].
      constructor; [lia|].
      eapply Forall_impl; [exact Hy|]. intros z Hz. simpl in Hz. lia.
Qed.

Lemma sortZ_sorted (l : list Z) :
  NoDup l → StronglySorted Z.lt (sortZ l).
Proof.
  unfold sortZ. induction 1 as [|x l Hx _ IH]; simpl; [constructor|].
  apply insertZ_sorted; [done|]. by rewrite elem_of_sortZ.
Qed.

Lemma scheduleBatches_imap (distances : list Z)
  (m : JsMap.t Z (list Flip)) (p : Player) :
  ∀ delay0,
  fst (scheduleBatches distances m p delay0) =
  imap
    (fun i dist =>
       mkTimer (delay0 + delayIncrement * Z.of_nat i)
         (FlipBatch (default [] (JsMap.get m dist)) p))
    distances.
Proof.
  induction distances as [|dist rest IH]; intros delay0; [done|].
  simpl. specialize (IH (delay0 + delayIncrement)).
  destruct (scheduleBatches rest m p (delay0 + delayIncrement)) as [ts d'].
  simpl in *. rewrite IH. f_equal; [f_equal; lia|].
  apply imap_ext. intros i x _. simpl. f_equal. lia.
Qed.

(** X6. The schedule of [animateFlips]: with the ranks of the flips in
    strictly increasing order, the i-th timer fires after i * 150 ms and
    flips the tiles of the i-th rank (in the order of the list), and one
    more timer, after as many increments as there are ranks, ends the
    animation; [isAnimating] is set. *)
Theorem animateFlips_schedule (w : World) (flips : list Flip) (p : Player) :
  ∃ dists : list Z,
    StronglySorted Z.lt dists ∧
    (∀ d, d ∈ dists ↔ ∃ f, f ∈ flips ∧ distance f = d) ∧
    timers (animateFlips w flips p) =
      timers w ++ batchTimers flips p dists ++
      [mkTimer (delayIncrement * Z.of_nat (length dists)) FinishAnimation] ∧
    gameState (animateFlips w flips p) =
      with_isAnimating (gameState w) true ∧
    modal (animateFlips w flips p) = modal w.
Proof.
  exists (sortZ (JsMap.keys (groupByDistance (sortByDistance flips)))).
  split_and!.
  - apply sortZ_sorted, NoDup_keys_groupByDistance.
  - intros d. rewrite elem_of_sortZ, <- JsMapFacts.get_is_Some.
    rewrite (proj2 (groupByDistance_get _ d)), flipsAt_sortByDistance.
    apply flipsAt_nil_iff.
  - unfold animateFlips.
    pose proof (scheduleBatches_spec
      (sortZ (JsMap.keys (groupByDistance (sortByDistance flips))))
      (groupByDistance (sortByDistance flips)) p 0) as (Hd & _ & _).
    pose proof (scheduleBatches_imap
      (sortZ (JsMap.keys (groupByDistance (sortByDistance flips))))
      (groupByDistance (sortByDistance flips)) p 0) as Hts.
    destruct (scheduleBatches _ _ _ _) as [batches d]. simpl in *.
    subst d batches. do 2 f_equal.
    unfold batchTimers. apply imap_ext. intros i dist _. simpl.
    by rewrite (proj1 (groupByDistance_get _ dist)), flipsAt_sortByDistance.
  - apply gameState_animateFlips.
  - unfold animateFlips. by destruct (scheduleBatches _ _ _ _).
Qed.

(** ** Turns and supplies *)

Lemma turnOk_finishTurn (w : World) :
  let gs := gameState w in
  let wr := whiteTilesRemaining gs in
  let br := blackTilesRemaining gs in
  0 <= wr <= TILES_PER_PLAYER → 0 <= br <= TILES_PER_PLAYER →
  gameOver gs = false → isAnimating gs = false → modal w = None →
  match currentPlayer gs with
  | WHITE => br = wr + 1
  | BLACK => wr = br
  end →
  turnOk (finishTurn w).
Proof.
  destruct w as [[p t wr br hh lp lt go dm af an] ts md]. simpl.
  intros Hw Hb -> -> -> Hturn.
  unfold turnOk, finishTurn. simpl.
  destruct (Z.eqb_spec wr 0) as [Hw0|Hw0], (Z.eqb_spec br 0) as [Hb0|Hb0];
    destruct p; simpl; repeat split; try done; try lia.
Qed.

Lemma modal_animateFlips (w : World) (flips : list Flip) (p : Player) :
  modal (animateFlips w flips p) = modal w.
Proof. unfold animateFlips. by destruct (scheduleBatches _ _ _ _). Qed.

Lemma turnOk_placeTile (w : World) (q r now : Z) :
  turnOk w → turnOk (snd (placeTile w q r now)).
Proof.
  intros Hok. destruct (decide (rejected w q r)) as [Hr|Hnr].
  { by rewrite placeTile_rejected. }
  rewrite placeTile_accepted by done. cbv zeta. cbn [snd].
  unfold rejected, remaining in Hnr. cbv zeta in Hnr.
  unfold turnOk in Hok. cbv zeta in Hok.
  destruct (gameOver (gameState w)) eqn:Hgo; [tauto|].
  destruct (isAnimating (gameState w)) eqn:Han; [tauto|].
  destruct Hok as (Hw & Hb & Hmodal & Hturn).
  destruct (0 <? length _)%nat.
  - unfold turnOk. rewrite gameState_animateFlips, modal_animateFlips.
    unfold putTile. simpl. rewrite Hgo.
    destruct (currentPlayer (gameState w)); simpl in *;
      repeat split; try done; lia.
  - apply turnOk_finishTurn; unfold putTile; simpl; try done;
      destruct (currentPlayer (gameState w)); simpl in *; lia.
Qed.

Lemma turnOk_fireTimer (w : World) : Inv w → turnOk w → turnOk (fireTimer w).
Proof.
  intros (_ & _ & Hst & _) Hok. unfold fireTimer.
  destruct (timers w) as [|tm rest] eqn:Hts; [done|].
  unfold staged in Hst. rewrite Hts in Hst.
  destruct (isAnimating (gameState w)) eqn:Han; [|done].
  destruct Hst as (Hgo & _).
  unfold turnOk in Hok. cbv zeta in Hok. rewrite Hgo, Han in Hok.
  destruct Hok as (Hw & Hb & Hmodal & Hturn).
  destruct (action tm) as [flipsAtDist newPlayer|]; simpl.
  - unfold turnOk. simpl. by rewrite Hgo, Han.
  - apply turnOk_finishTurn; simpl; try done.
Qed.

Lemma reachable_turnOk (w : World) : reachable w → turnOk w.
Proof.
  induction 1 as [|w e Hw IH].
  - unfold turnOk. simpl. unfold TILES_PER_PLAYER. repeat split; lia.
  - destruct e as [q r now| |hex| |]; simpl.
    + rewrite handleClick_placeTile. by apply turnOk_placeTile.
    + apply turnOk_fireTimer; [by apply reachable_Inv | done].
    + exact IH.
    + exact IH.
    + exact IH.
Qed.

(** X7. As long as no restart comes while an animation is running, in
    every world of a session the supplies are between 0 and 20.  When
    the game is neither over nor animating, White is to move exactly when
    the two supplies are equal and Black when Black has one tile more,
    and the player to move has a tile left: a request is then turned
    down only for an invalid coordinate or an occupied cell. *)
Theorem turn_and_supply (ins : list Input) :
  idleRestarts initialWorld ins = true →
  let w := session initialWorld ins in
  let gs := gameState w in
  let wr := whiteTilesRemaining gs in
  let br := blackTilesRemaining gs in
  0 <= wr <= 20 ∧ 0 <= br <= 20 ∧
  (gameOver gs = false → isAnimating gs = false →
   (currentPlayer gs = WHITE ↔ wr = br) ∧
   (currentPlayer gs = BLACK ↔ br = wr + 1) ∧
   0 < remaining gs (currentPlayer gs) ∧
   ∀ q r, rejected w q r ↔
          isValidHex q r = false ∨ JsMap.has (tiles gs) (hexKey q r) = true).
Proof.
  intros Hidle w.
  assert (Hreach : reachable w)
    by (apply session_reachable; [constructor | done]).
  clearbody w. clear Hidle ins. revert Hreach.
  intros Hok%reachable_turnOk. unfold turnOk in Hok. cbv zeta in *.
  destruct Hok as (Hw & Hb & Hrest). unfold TILES_PER_PLAYER in *.
  split; [done|]. split; [done|]. intros Hgo Han.
  rewrite Hgo, Han in Hrest. destruct Hrest as (_ & Hturn).
  unfold rejected, remaining. cbv zeta. rewrite Hgo, Han.
  destruct (currentPlayer (gameState w)); split_and!;
    try (split; [done | lia]); try (split; [lia | done]); try lia;
    try (split; intros; [lia | done]);
    intros q r; split; try tauto;
    intros [?|[?|[?|[?|?]]]]; try done; try tauto; lia.
Qed.

(** The bracket position of the session with a restart between two
    games: White is to move with 18 tiles each. *)
Lemma turn_and_supply_witness :
  idleRestarts initialWorld idleInputs = true ∧
  (currentPlayer (gameState (session initialWorld idleInputs)) = WHITE ↔
   whiteTilesRemaining (gameState (session initialWorld idleInputs))
   = blackTilesRemaining (gameState (session initialWorld idleInputs))).
Proof.
  assert (Hidle : idleRestarts initialWorld idleInputs = true)
    by by vm_compute.
  split; [exact Hidle|].
  pose proof (turn_and_supply idleInputs Hidle) as Hturn.
  cbv zeta in Hturn. destruct Hturn as (_ & _ & Hturn).
  apply Hturn; by vm_compute.
Defined.

(** ** The end of a game and its progress *)

(** X8. As long as no restart comes while an animation is running, in
    every world of a session the game-over modal is shown exactly when
    the game is over; then both supplies are zero, no flip is staged,
    the board holds exactly forty tiles, and the modal shows the counts
    of the board, which add up to forty, with the outcome they give. *)
Theorem game_over_state (ins : list Input) :
  idleRestarts initialWorld ins = true →
  let w := session initialWorld ins in
  let gs := gameState w in
  (modal w = None ↔ gameOver gs = false) ∧
  (gameOver gs = true →
   whiteTilesRemaining gs = 0 ∧ blackTilesRemaining gs = 0 ∧
   isAnimating gs = false ∧ timers w = [] ∧
   length (tiles gs) = 40%nat ∧
   (fst (countTiles (tiles gs)) + snd (countTiles (tiles gs)) = 40)%nat ∧
   modal w =
     Some (mkModal (outcomeOf (countTiles (tiles gs)))
             (countTiles (tiles gs)))).
Proof.
  intros Hidle w.
  assert (Hreach : reachable w)
    by (apply session_reachable; [constructor | done]).
  clearbody w. clear Hidle ins. revert Hreach.
  intros Hreach. pose proof (reachable_turnOk w Hreach) as Hok.
  pose proof (reachable_Inv w Hreach) as (_ & _ & Hst & Hcount).
  unfold turnOk in Hok. unfold staged in Hst. cbv zeta in *.
  destruct Hok as (_ & _ & Hrest).
  destruct (gameOver (gameState w)).
  - destruct Hrest as (Hw & Hb & Han & Hmodal). rewrite Han in Hst.
    rewrite Hw, Hb in Hcount. unfold TILES_PER_PLAYER in Hcount.
    assert (Hlen : length (tiles (gameState w)) = 40%nat) by lia.
    split; [by rewrite Hmodal|]. intros _.
    split_and!; try done. by rewrite countTiles_total.
  - destruct Hrest as [Hmodal _]. by split.
Qed.

(** The full game of the samples ends with forty tiles on the board. *)
Lemma game_over_state_witness :
  idleRestarts initialWorld fullGameInputs = true ∧
  length (tiles (gameState (session initialWorld fullGameInputs))) = 40%nat.
Proof.
  assert (Hidle : idleRestarts initialWorld fullGameInputs = true)
    by by vm_compute.
  split; [exact Hidle|].
  pose proof (game_over_state fullGameInputs Hidle) as Hover.
  cbv zeta in Hover. destruct Hover as [_ Hover].
  apply Hover. by vm_compute.
Defined.

(** Forty tiles never fill the board. *)
Lemma free_cell_exists (t : Tiles) :
  (length t < 169)%nat →
  ∃ h, validHex h ∧ JsMap.has t h = false.
Proof.
  intros Hlen.
  destruct (decide (Exists (fun h => h ∉ JsMap.keys t) getAllValidHexes))
    as [Hex|Hall].
  - apply Exists_exists in Hex as (h & Hh & Hfree). exists h.
    split; [by apply elem_of_getAllValidHexes|].
    by apply JsMapFacts.has_false.
  - exfalso. apply not_Exists_Forall in Hall; [|intros h; apply _].
    assert (Hsub : getAllValidHexes ⊆+ JsMap.keys t).
    { apply NoDup_submseteq.
      - apply (bool_decide_unpack _). by vm_compute.
      - intros h Hh. rewrite Forall_forall in Hall.
        specialize (Hall h Hh). simpl in Hall.
        by destruct (decide (h ∈ JsMap.keys t)). }
    apply submseteq_length in Hsub.
    assert (Hn : length getAllValidHexes = 169%nat) by by vm_compute.
    unfold JsMap.keys in Hsub. rewrite length_map in Hsub. lia.
Qed.

(** X9. As long as no restart comes while an animation is running, the
    game cannot get stuck: in a world of a session that is neither over
    nor animating, a request on any free cell of the board is accepted,
    and there is a free cell. *)
Theorem game_can_proceed (ins : list Input) :
  idleRestarts initialWorld ins = true →
  let w := session initialWorld ins in
  gameOver (gameState w) = false → isAnimating (gameState w) = false →
  (∀ q r now,
     isValidHex q r = true →
     JsMap.has (tiles (gameState w)) (hexKey q r) = false →
     fst (placeTile w q r now) = true) ∧
  ∃ h, validHex h ∧ JsMap.has (tiles (gameState w)) h = false.
Proof.
  intros Hidle w.
  assert (Hreach : reachable w)
    by (apply session_reachable; [constructor | done]).
  clearbody w. clear Hidle ins. revert Hreach.
  intros Hreach Hgo Han.
  pose proof (reachable_turnOk w Hreach) as Hok.
  pose proof (reachable_Inv w Hreach) as (_ & _ & _ & Hcount).
  unfold turnOk in Hok. cbv zeta in Hok. rewrite Hgo, Han in Hok.
  destruct Hok as (Hw & Hb & _ & Hturn). unfold TILES_PER_PLAYER in *.
  split.
  - intros q r now Hv Hfree. rewrite placeTile_accepted; [done|].
    unfold rejected, remaining. cbv zeta. rewrite Hgo, Han, Hv, Hfree.
    destruct (currentPlayer (gameState w));
      intros [?|[?|[?|[?|?]]]]; try done; lia.
  - apply free_cell_exists. lia.
Qed.

(** After a tile and a restart White may place anywhere on the board. *)
Lemma game_can_proceed_witness :
  fst (placeTile (session initialWorld [Play (Click 3 0 0); Restart])
         3 (-2) 0) = true.
Proof.
  pose proof (game_can_proceed [Play (Click 3 0 0); Restart] eq_refl)
    as Hproceed.
  cbv zeta in Hproceed.
  destruct (Hproceed eq_refl eq_refl) as [Hany _].
  by apply Hany.
Defined.

(** ** Tiles stay on the board *)

Lemma occupied_set (t : Tiles) (k c : Hex) (p : Player) :
  is_Some (JsMap.get t c) → is_Some (JsMap.get (JsMap.set t k p) c).
Proof.
  rewrite JsMapFacts.get_set. by destruct (decide (k = c)).
Qed.

Lemma occupied_step (w : World) (e : Event) (c : Hex) :
  is_Some (occupant w c) → is_Some (occupant (step w e) c).
Proof.
  unfold occupant. intros Hc.
  destruct e as [q r now| |hex| |]; simpl; try done.
  - rewrite handleClick_placeTile.
    destruct (decide (rejected w q r)) as [Hr|Hnr].
    + by rewrite placeTile_rejected.
    + destruct (placeTile_accepted_state w q r now Hnr) as (-> & _).
      by apply occupied_set.
  - unfold fireTimer. destruct (timers w) as [|tm rest]; [done|].
    destruct (action tm) as [flipsAtDist newPlayer|]; simpl.
    + rewrite get_applyBatch. by destruct (decide _).
    + by rewrite tiles_finishTurn.
Qed.

(** X10. No step of a game removes a tile: a cell that is occupied stays
    occupied (by one player or the other) whatever happens next, and a
    later request on it is turned down. *)
Theorem tiles_never_removed (w : World) (es : list Event) (c : Hex)
  (now : Z) :
  is_Some (occupant w c) →
  is_Some (occupant (run w es) c) ∧
  placeTile (run w es) (fst c) (snd c) now = (false, run w es).
Proof.
  intros Hc.
  assert (Hrun : is_Some (occupant (run w es) c)).
  { revert w Hc. induction es as [|e es IH]; intros w Hc; [done|].
    simpl. apply IH. by apply occupied_step. }
  split; [done|]. apply placeTile_rejected. do 3 right. left.
  unfold hexKey. rewrite <- surjective_pairing.
  by apply JsMapFacts.has_true, JsMapFacts.get_is_Some.
Qed.

(** The black tile at (1,0) of the bracket position is still a tile
    after it has been captured. *)
Lemma tiles_never_removed_witness :
  is_Some (occupant
             (run bracketWorld
                [Click 0 0 0; TimerFires; TimerFires; TimerFires]) (1, 0)).
Proof.
  apply (tiles_never_removed bracketWorld
           [Click 0 0 0; TimerFires; TimerFires; TimerFires] (1, 0) 0).
  vm_compute. by eexists.
Defined.

(** ** The resolution of a placement as a whole *)

Lemma fireTimers_add (a b : nat) (w : World) :
  fireTimers (a + b) w = fireTimers b (fireTimers a w).
Proof. revert w. induction a as [|a IH]; intros w; [done|]. apply IH. Qed.

Lemma fireTimers_idle (n : nat) (w : World) :
  timers w = [] → fireTimers n w = w.
Proof.
  intros Hts. induction n as [|n IH]; [done|]. simpl.
  unfold fireTimer. by rewrite Hts.
Qed.

(** The batches of a queue change the tiles and nothing else. *)
Lemma fireTimers_batches (batches : list Timer) :
  ∀ (w : World) (rest : list Timer),
  timers w = batches ++ rest → Forall isBatch batches →
  ∃ T, fireTimers (length batches) w
       = mkWorld (with_tiles (gameState w) T) rest (modal w).
Proof.
  induction batches as [|b batches IH]; intros w rest Hts Hall.
  - exists (tiles (gameState w)). simpl in *.
    destruct w as [[] ? ?]. simpl in *. by subst.
  - apply Forall_cons in Hall as [Hb Hall]. simpl.
    unfold fireTimer at 1. rewrite Hts. simpl.
    unfold isBatch in Hb.
    destruct (action b) as [flipsAtDist newPlayer|]; [|done]. simpl.
    destruct (IH (mkWorld
                    (with_tiles (gameState w)
                       (applyBatch (tiles (gameState w)) flipsAtDist
                          newPlayer))
                    (batches ++ rest) (modal w)) rest eq_refl Hall)
      as [T HT].
    exists T. by rewrite HT.
Qed.

(** All the timers of an accepted request: the last thing that happens
    is [finishTurn], on the state of the placement with the flipped tiles
    and the animation switched off. *)
Lemma resolution_shape (w : World) (q r now : Z) :
  reachable w → ¬ rejected w q r →
  let placed := snd (placeTile w q r now) in
  ∃ T,
    fireTimers (length (timers placed)) placed =
    finishTurn
      (mkWorld
         (with_isAnimating (with_tiles (putTile (gameState w) q r now) T)
            false)
         [] (modal w)).
Proof.
  intros Hreach Hnr.
  pose proof (reachable_Inv w Hreach) as (_ & _ & Hst & _).
  assert (Han : isAnimating (gameState w) = false).
  { unfold rejected in Hnr. cbv zeta in Hnr.
    destruct (isAnimating (gameState w)); tauto. }
  unfold staged in Hst. rewrite Han in Hst.
  rewrite placeTile_accepted by done. cbv zeta. cbn [snd]. rewrite Hst.
  destruct (0 <? length _)%nat.
  - destruct (animateFlips_timers
                (mkWorld (putTile (gameState w) q r now) [] (modal w))
                (captureSet (tiles (gameState w)) q r
                   (currentPlayer (gameState w)))
                (currentPlayer (gameState w)))
      as (batches & Hts & Hbatches & _).
    simpl in Hts. rewrite Hts.
    rewrite length_app. simpl. rewrite fireTimers_add.
    destruct (fireTimers_batches batches _ _ Hts Hbatches) as [T ->].
    rewrite gameState_animateFlips, modal_animateFlips. simpl.
    exists T. unfold fireTimer. simpl. done.
  - rewrite timers_finishTurn. simpl.
    exists (tiles (putTile (gameState w) q r now)).
    f_equal. f_equal.
    destruct (gameState w). simpl in *. by subst.
Qed.

(** X11. As long as no restart comes while an animation is running, an
    accepted request in a world of a session and all its timers, taken
    together: the queue is empty again and the animation is off; the
    player who placed has one tile less and the other supply is as
    before; the last placed tile is recorded; if both supplies are zero
    the game is over (and the current player stays), otherwise the turn
    has passed to the other player.  Firing more timers changes
    nothing. *)
Theorem placement_resolution (ins : list Input) (q r now : Z) :
  idleRestarts initialWorld ins = true →
  let w := session initialWorld ins in
  fst (placeTile w q r now) = true →
  let p := currentPlayer (gameState w) in
  let placed := snd (placeTile w q r now) in
  let final := fireTimers (length (timers placed)) placed in
  timers final = [] ∧
  isAnimating (gameState final) = false ∧
  remaining (gameState final) p = remaining (gameState w) p - 1 ∧
  remaining (gameState final) (other p) = remaining (gameState w) (other p) ∧
  lastPlacedTile (gameState final) = Some ((q, r), p) ∧
  (if (whiteTilesRemaining (gameState final) =? 0) &&
      (blackTilesRemaining (gameState final) =? 0)
   then gameOver (gameState final) = true ∧
        currentPlayer (gameState final) = p
   else gameOver (gameState final) = false ∧
        currentPlayer (gameState final) = other p) ∧
  ∀ m, (length (timers placed) <= m)%nat → fireTimers m placed = final.
Proof.
  intros Hidle w.
  assert (Hreach : reachable w)
    by (apply session_reachable; [constructor | done]).
  clearbody w. clear Hidle ins. revert Hreach.
  intros Hreach Hacc p placed final.
  pose proof (accepted_not_rejected w q r now Hacc) as Hnr.
  destruct (resolution_shape w q r now Hreach Hnr) as [T Hfinal].
  fold placed in Hfinal. fold final in Hfinal.
  assert (Hgo : gameOver (gameState w) = false).
  { unfold rejected in Hnr. cbv zeta in Hnr.
    destruct (gameOver (gameState w)); tauto. }
  assert (Hts : timers final = []) by by rewrite Hfinal, timers_finishTurn.
  split; [done|].
  assert (Hfields :
    isAnimating (gameState final) = false ∧
    remaining (gameState final) p = remaining (gameState w) p - 1 ∧
    remaining (gameState final) (other p)
      = remaining (gameState w) (other p) ∧
    lastPlacedTile (gameState final) = Some ((q, r), p) ∧
    (if (whiteTilesRemaining (gameState final) =? 0) &&
        (blackTilesRemaining (gameState final) =? 0)
     then gameOver (gameState final) = true ∧
          currentPlayer (gameState final) = p
     else gameOver (gameState final) = false ∧
          currentPlayer (gameState final) = other p)).
  { rewrite Hfinal, gameState_finishTurn. unfold putTile, remaining.
    fold p. simpl.
    destruct ((_ =? 0) && (_ =? 0)) eqn:Hzero; simpl; rewrite ?Hzero;
      destruct p; simpl; split_and!; try done; lia. }
  destruct Hfields as (? & ? & ? & ? & ?). split_and!; try done.
  intros m Hm.
  replace m with (length (timers placed) + (m - length (timers placed)))%nat
    by lia.
  rewrite fireTimers_add. fold final. by apply fireTimers_idle.
Qed.

(** The bracket position of the session with a restart between two
    games: after the tile of White at (0,0) and its three timers it is
    Black's turn. *)
Lemma placement_resolution_witness :
  idleRestarts initialWorld idleInputs = true ∧
  currentPlayer
    (gameState
       (fireTimers
          (length
             (timers (snd (placeTile (session initialWorld idleInputs)
                             0 0 0))))
          (snd (placeTile (session initialWorld idleInputs) 0 0 0))))
  = BLACK.
Proof.
  assert (Hidle : idleRestarts initialWorld idleInputs = true)
    by by vm_compute.
  split; [exact Hidle|].
  assert (Hacc : fst (placeTile (session initialWorld idleInputs) 0 0 0)
                 = true) by by vm_compute.
  pose proof (placement_resolution idleInputs 0 0 0 Hidle Hacc) as Hres.
  cbv zeta in Hres. destruct Hres as (_ & _ & _ & _ & _ & Hturn & _).
  vm_compute in Hturn. destruct Hturn as [_ Hturn]. vm_compute. exact Hturn.
Defined.

(** ** How the zones change *)

Lemma elem_of_set (t : Tiles) (c tile : Hex) (p pl : Player) :
  NoDup (JsMap.keys t) →
  (tile, pl) ∈ JsMap.set t c p ↔
  (tile = c ∧ pl = p) ∨ (tile ≠ c ∧ (tile, pl) ∈ t).
Proof.
  intros Hnd.
  assert (Hnd' : NoDup (JsMap.keys (JsMap.set t c p)))
    by by apply JsMapFacts.NoDup_keys_set.
  split.
  - intros Hin%JsMapFacts.elem_get_Some; [|done].
    rewrite JsMapFacts.get_set in Hin.
    destruct (decide (c = tile)) as [->|Hne].
    + left. split; [done | congruence].
    + right. split; [done|]. by apply JsMapFacts.get_Some_elem.
  - intros [[-> ->]|[Hne Hin]]; apply JsMapFacts.get_Some_elem.
    + apply JsMapFacts.get_set_eq.
    + rewrite JsMapFacts.get_set_ne by done.
      by apply JsMapFacts.elem_get_Some.
Qed.

(** X12. When a cell becomes a tile of a player, by placement or by a
    flip, the zone of control of that player grows by exactly the zone
    of that cell; and a placement on an empty cell leaves the zone of
    the other player as it is. *)
Theorem zone_grows (t : Tiles) (c : Hex) (p : Player) :
  NoDup (JsMap.keys t) → JsMap.get t c ≠ Some p →
  calculateZOC (JsMap.set t c p) p = calculateZOC t p ∪ tileZone c ∧
  (JsMap.get t c = None →
   calculateZOC (JsMap.set t c p) (other p) = calculateZOC t (other p)).
Proof.
  intros Hnd Hnot. split.
  - apply set_eq. intros x.
    rewrite elem_of_union, !elem_of_calculateZOC, elem_of_tileZone.
    split.
    + intros (Hv & tile & Htile & Hx).
      apply elem_of_set in Htile; [|done].
      destruct Htile as [[-> _]|[_ Htile]].
      * by right.
      * left. split; [done|]. by exists tile.
    + intros [(Hv & tile & Htile & Hx)|(Hv & Hx)].
      * split; [done|]. exists tile. split; [|done].
        apply elem_of_set; [done|].
        destruct (decide (tile = c)) as [->|Hne]; [|by right].
        exfalso. apply Hnot. by apply JsMapFacts.elem_get_Some.
      * split; [done|]. exists c. split; [|done].
        apply elem_of_set; [done|]. by left.
  - intros Hnone. apply set_eq. intros x.
    rewrite !elem_of_calculateZOC. split.
    + intros (Hv & tile & Htile & Hx).
      apply elem_of_set in Htile; [|done].
      destruct Htile as [[_ Hp]|[_ Htile]].
      * by destruct p.
      * split; [done|]. by exists tile.
    + intros (Hv & tile & Htile & Hx). split; [done|]. exists tile.
      split; [|done]. apply elem_of_set; [done|]. right. split; [|done].
      intros ->. apply JsMapFacts.elem_get_Some in Htile; [|done].
      congruence.
Qed.

(** White places at the origin of an empty board: the zone is the seven
    cells around the origin. *)
Lemma zone_grows_witness :
  calculateZOC (JsMap.set [] (0, 0) WHITE) WHITE = ∅ ∪ tileZone (0, 0).
Proof.
  apply (zone_grows [] (0, 0) WHITE); [apply NoDup_nil_2 | done].
Defined.

(** ** Keys, counts and resets *)

(** X13. The string keys of the source are faithful: two coordinate
    pairs have the same key string exactly when they are the same pair,
    so no two cells of the board share an entry of the map. *)
Theorem hexKeyString_injective (q1 r1 q2 r2 : Z) :
  hexKeyString q1 r1 = hexKeyString q2 r2 ↔ q1 = q2 ∧ r1 = r2.
Proof.
  split.
  - intros Heq%KeyFacts.hexKeyString_inj. unfold hexKey in Heq.
    by injection Heq.
  - by intros [-> ->].
Qed.

(** X14. [countTiles] returns the number of white tiles and the number
    of black tiles of the board, and the two add up to the size of the
    map. *)
Theorem countTiles_counts (t : Tiles) :
  countTiles t =
    (length (getPlayerTiles t WHITE), length (getPlayerTiles t BLACK)) ∧
  (fst (countTiles t) + snd (countTiles t))%nat = JsMap.size t.
Proof. split; [apply countTiles_spec | apply countTiles_total]. Qed.

(** X15. A reset while no flip is staged starts a fresh game: the new
    world is the initial one up to the debug switch, which is kept; it
    has no pending timer and no modal, and it is a reachable world. *)
Theorem resetGame_fresh (w : World) :
  reachable w → isAnimating (gameState w) = false →
  resetGame w =
    mkWorld (with_debugMode initialState (debugMode (gameState w))) [] None ∧
  debugMode (gameState (resetGame w)) = debugMode (gameState w) ∧
  reachable (resetGame w).
Proof.
  intros Hreach Han. split_and!.
  - pose proof (reachable_Inv w Hreach) as (_ & _ & Hst & _).
    unfold staged in Hst. rewrite Han in Hst.
    unfold resetGame. by rewrite Hst.
  - done.
  - by apply reachable_resetGame.
Qed.

(** A reset at the end of the full game of the samples. *)
Lemma resetGame_fresh_witness : resetGame fullGameWorld = initialWorld.
Proof.
  assert (Hreach : reachable fullGameWorld)
    by (apply reachable_run; constructor).
  assert (Han : isAnimating (gameState fullGameWorld) = false)
    by by vm_compute.
  destruct (resetGame_fresh fullGameWorld Hreach Han) as (-> & _ & _).
  by vm_compute.
Defined.

(** ** The immediate resolution of surrounded tiles *)

Lemma get_flipTiles (t : Tiles) (l : list Hex) (p : Player) (c : Hex) :
  JsMap.get (flipTiles t l p) c =
  if decide (c ∈ l) then Some p else JsMap.get t c.
Proof.
  unfold flipTiles. revert t.
  induction l as [|k l IH]; intros t; cbn [foldl].
  - rewrite decide_False; [done | by intros ?%elem_of_nil].
  - rewrite IH, JsMapFacts.get_set. unfold hexKey.
    rewrite <- surjective_pairing.
    destruct (decide (c ∈ l)) as [Hin|Hnotin].
    + rewrite decide_True; [done | by right].
    + destruct (decide (k = c)) as [->|Hne].
      * rewrite decide_True; [done | by left].
      * rewrite decide_False; [done|].
        intros [->|?]%elem_of_cons; done.
Qed.

Section ProcessSurrounded.
Variables (t : Tiles) (p : Player).

Lemma get_processStep (s : Tiles) (tile c : Hex) :
  JsMap.get (processStep p s tile) c =
  if decide (c ∈ getTilesInStraightLines s (fst tile) (snd tile) (other p)
             ∨ tile = c)
  then Some p else JsMap.get s c.
Proof.
  unfold processStep. rewrite get_flipTiles, JsMapFacts.get_set. unfold hexKey.
  rewrite <- surjective_pairing.
  destruct (decide (c ∈ _)) as [Hin|Hnotin].
  - rewrite decide_True; [done | by left].
  - destruct (decide (tile = c)) as [->|Hne].
    + rewrite decide_True; [done | by right].
    + rewrite decide_False; [done | intros [?|?]; done].
Qed.

Lemma keys_processStep (s : Tiles) (tile : Hex) :
  tile ∈ JsMap.keys s → JsMap.keys (processStep p s tile) = JsMap.keys s.
Proof.
  intros Hin. unfold processStep, hexKey. rewrite <- surjective_pairing.
  rewrite keys_flipTiles; rewrite JsMapFacts.keys_set_present; try done.
  apply Forall_forall. intros c Hc%getTilesInStraightLines_owned.
  apply JsMapFacts.get_is_Some. by eexists.
Qed.

Lemma process_fold (l : list Hex) :
  ∀ s : Tiles,
  (∀ tile, tile ∈ l → JsMap.get t tile = Some (other p)) →
  onlyFlipped t p s → JsMap.keys s = JsMap.keys t →
  onlyFlipped t p (foldl (processStep p) s l) ∧
  JsMap.keys (foldl (processStep p) s l) = JsMap.keys t ∧
  (∀ c, JsMap.get s c = Some p →
        JsMap.get (foldl (processStep p) s l) c = Some p) ∧
  (∀ tile, tile ∈ l →
           JsMap.get (foldl (processStep p) s l) tile = Some p).
Proof.
  assert (Hpp : Some (other p) ≠ Some p) by (by destruct p).
  induction l as [|tile l IH]; intros s Hdef Hrel Hkeys; cbn [foldl].
  - repeat split; try done. by intros tile ?%elem_of_nil.
  - assert (Htile : JsMap.get t tile = Some (other p))
      by (apply Hdef; left).
    assert (Hrel1 : onlyFlipped t p (processStep p s tile)).
    { intros c. rewrite get_processStep.
      destruct (decide (_ ∨ tile = c)) as [[Hin | <-]|_].
      - apply getTilesInStraightLines_owned in Hin.
        destruct (Hrel c) as [Heq|[_ Hp]]; [|congruence].
        right. split; [congruence | done].
      - by right.
      - apply Hrel. }
    assert (Hkeys1 : JsMap.keys (processStep p s tile) = JsMap.keys t).
    { rewrite keys_processStep; [done|]. rewrite Hkeys.
      apply JsMapFacts.get_is_Some. by eexists. }
    destruct (IH (processStep p s tile)) as (Hr & Hk & Hmono & Hall);
      try done.
    { intros tile' Hin. apply Hdef. by right. }
    repeat split; try done.
    + intros c Hc. apply Hmono. rewrite get_processStep.
      by destruct (decide (_ ∨ tile = c)).
    + intros tile' [-> | Hin]%elem_of_cons; [|by apply Hall].
      apply Hmono. rewrite get_processStep.
      rewrite decide_True; [done | by right].
Qed.

End ProcessSurrounded.

(** X18. The immediate resolution of surrounded tiles, on a board whose
    keys are distinct: it keeps the cells of the board and their order;
    a cell that changes belonged to the defender and now belongs to the
    attacker; every tile of the defender that the attacker's zone
    surrounded at the call belongs to the attacker afterwards; the
    result is [true] exactly when some tile was surrounded, and when it
    is [false] the board is unchanged. *)
Theorem processSurroundedTiles_spec (t : Tiles) (p : Player) :
  NoDup (JsMap.keys t) →
  JsMap.keys (fst (processSurroundedTiles t p)) = JsMap.keys t ∧
  (∀ c, JsMap.get (fst (processSurroundedTiles t p)) c = JsMap.get t c ∨
        (JsMap.get t c = Some (other p) ∧
         JsMap.get (fst (processSurroundedTiles t p)) c = Some p)) ∧
  (∀ c, c ∈ surroundedTiles t p →
        JsMap.get (fst (processSurroundedTiles t p)) c = Some p) ∧
  (snd (processSurroundedTiles t p) = true ↔ surroundedTiles t p ≠ []) ∧
  (snd (processSurroundedTiles t p) = false →
   fst (processSurroundedTiles t p) = t).
Proof.
  intros Hnd.
  destruct (process_fold t p (surroundedTiles t p) t)
    as (Hr & Hk & _ & Hall).
  { intros tile [_ Hin]%list_elem_of_filter.
    apply elem_of_getPlayerTiles in Hin.
    by apply JsMapFacts.elem_get_Some. }
  { intros c. by left. }
  { done. }
  unfold processSurroundedTiles. cbv zeta. cbn [fst snd].
  fold (surroundedTiles t p).
  split; [exact Hk|]. split; [exact Hr|]. split; [exact Hall|].
  destruct (surroundedTiles t p) as [|tile l]; cbn [length foldl].
  - split; [|done]. split; [done|]. by intros [].
  - split; [|done]. split; [done|]. intros _.
    by apply Nat.ltb_lt; simpl; lia.
Qed.

(** The black tile in the corner (7,-7) is surrounded and becomes
    white. *)
Lemma processSurroundedTiles_spec_witness :
  NoDup (JsMap.keys cornerBoard) ∧
  JsMap.get (fst (processSurroundedTiles cornerBoard WHITE)) (7, -7)
  = Some WHITE.
Proof.
  assert (Hnd : NoDup (JsMap.keys cornerBoard)).
  { apply (bool_decide_unpack _). by vm_compute. }
  split; [exact Hnd|].
  destruct (processSurroundedTiles_spec cornerBoard WHITE Hnd)
    as (_ & _ & Hall & _).
  apply Hall. apply (bool_decide_unpack _). by vm_compute.
Defined.
(** ** The play and the pointer *)

Lemma playView_finishTurn (w : World) :
  playView (finishTurn w) = finishTurn (playView w).
Proof.
  destruct w as [[p t wr br hh lp lt go dm af an] ts md].
  unfold finishTurn, playView, showGameOver. simpl.
  by destruct ((wr =? 0) && (br =? 0)).
Qed.

Lemma playView_animateFlips (w : World) (flips : list Flip) (p : Player) :
  playView (animateFlips w flips p) = animateFlips (playView w) flips p.
Proof.
  unfold animateFlips, playView. cbn [gameState timers modal].
  by destruct (scheduleBatches _ _ _ _) as [batches d].
Qed.

Lemma rejected_playView (w : World) (q r : Z) :
  rejected (playView w) q r ↔ rejected w q r.
Proof. by destruct w as [[p t wr br hh lp lt go dm af an] ts md]. Qed.

Lemma playView_placeTile (w : World) (q r now : Z) :
  placeTile (playView w) q r now =
  (fst (placeTile w q r now), playView (snd (placeTile w q r now))).
Proof.
  destruct (decide (rejected w q r)) as [Hr|Hnr].
  - rewrite !placeTile_rejected; [done | done | by apply rejected_playView].
  - rewrite !placeTile_accepted; [|done | by rewrite rejected_playView].
    cbv zeta. cbn [fst snd]. f_equal.
    destruct w as [[p t wr br hh lp lt go dm af an] ts md].
    cbn [playView gameState tiles currentPlayer timers modal
         with_debugMode with_hoveredHex].
    destruct (0 <? length _)%nat.
    + by rewrite playView_animateFlips.
    + by rewrite playView_finishTurn.
Qed.

Lemma playView_fireTimer (w : World) :
  playView (fireTimer w) = fireTimer (playView w).
Proof.
  unfold fireTimer. cbn [playView timers].
  destruct (timers w) as [|tm rest]; [done|].
  destruct (action tm) as [flipsAtDist newPlayer|]; cbn [runTimer].
  - by destruct w as [[p t wr br hh lp lt go dm af an] ts md].
  - rewrite playView_finishTurn.
    by destruct w as [[p t wr br hh lp lt go dm af an] ts md].
Qed.

Lemma playView_step (w : World) (e : Event) :
  playView (step w e) =
  if isPlayEvent e then step (playView w) e else playView w.
Proof.
  destruct e as [q r now| |hex| |]; cbn [step isPlayEvent].
  - rewrite !handleClick_placeTile, playView_placeTile. done.
  - apply playView_fireTimer.
  - by destruct w as [[p t wr br hh lp lt go dm af an] ts md].
  - by destruct w as [[p t wr br hh lp lt go dm af an] ts md].
  - by destruct w as [[p t wr br hh lp lt go dm af an] ts md].
Qed.

Lemma pointer_fields_step (w : World) (e : Event) :
  isPlayEvent e = true →
  hoveredHex (gameState (step w e)) = hoveredHex (gameState w) ∧
  debugMode (gameState (step w e)) = debugMode (gameState w).
Proof.
  destruct e as [q r now| |hex| |]; try done; intros _; cbn [step].
  - rewrite handleClick_placeTile.
    destruct (decide (rejected w q r)) as [Hr|Hnr].
    + by rewrite placeTile_rejected.
    + rewrite placeTile_accepted by done. cbv zeta. cbn [snd].
      destruct (0 <? length _)%nat.
      * by rewrite gameState_animateFlips.
      * rewrite gameState_finishTurn. cbv zeta.
        by destruct (_ && _).
  - unfold fireTimer. destruct (timers w) as [|tm rest]; [done|].
    destruct (action tm) as [flipsAtDist newPlayer|]; cbn [runTimer]; [done|].
    rewrite gameState_finishTurn. cbv zeta. by destruct (_ && _).
Qed.

(** X19. The pointer and the debug button do not interfere with the
    play.  Apart from [hoveredHex] and [debugMode], the world after a
    run is the world after the clicks and timers of the run alone; and
    clicks and timers never write [hoveredHex] or [debugMode]. *)
Theorem pointer_noninterference (w : World) (es : list Event) :
  playView (run w es) = run (playView w) (filter isPlayEvent es) ∧
  playView (run w es) = playView (run w (filter isPlayEvent es)) ∧
  hoveredHex (gameState (run w (filter isPlayEvent es)))
    = hoveredHex (gameState w) ∧
  debugMode (gameState (run w (filter isPlayEvent es)))
    = debugMode (gameState w).
Proof.
  assert (Hview : ∀ es w,
    playView (run w es) = run (playView w) (filter isPlayEvent es)).
  { clear. intros es. unfold run.
    induction es as [|e es IH]; intros w; [done|]. cbn [foldl].
    rewrite IH, playView_step.
    destruct (isPlayEvent e) eqn:He.
    - rewrite (filter_cons_True isPlayEvent); [done|].
      by apply Is_true_true.
    - rewrite (filter_cons_False isPlayEvent); [done|].
      by apply Is_true_false. }
  assert (Hplay : ∀ es w, Forall (fun e => isPlayEvent e = true) es →
    hoveredHex (gameState (run w es)) = hoveredHex (gameState w) ∧
    debugMode (gameState (run w es)) = debugMode (gameState w)).
  { clear. intros es. unfold run.
    induction es as [|e es IH]; intros w Hall; [done|]. cbn [foldl].
    apply Forall_cons in Hall as [He Hall].
    destruct (IH (step w e) Hall) as [-> ->].
    by apply pointer_fields_step. }
  assert (Hall : Forall (fun e => isPlayEvent e = true)
                   (filter isPlayEvent es)).
  { apply Forall_forall. intros e [He _]%list_elem_of_filter.
    by destruct (isPlayEvent e). }
  split; [apply Hview|]. split.
  - rewrite !Hview. f_equal. by rewrite list_filter_filter_l.
  - by apply Hplay.
Qed.

(** X20. In a reachable world the hovered hex, when there is one, is a
    cell of the board. *)
Theorem hoveredHex_valid (w : World) (h : Hex) :
  reachable w → hoveredHex (gameState w) = Some h → validHex h.
Proof.
  intros Hreach. revert h.
  induction Hreach as [|w e Hw IH]; intros h; [done|].
  destruct (isPlayEvent e) eqn:He.
  - destruct (pointer_fields_step w e He) as [-> _]. apply IH.
  - destruct e as [q r now| |hex| |]; try done; cbn [step].
    + destruct w as [[p t wr br hh lp lt go dm af an] ts md]. simpl.
      unfold validHex.
      destruct (isValidHex (fst hex) (snd hex)) eqn:Hv; [|done].
      by intros [= <-].
    + destruct w as [[p t wr br hh lp lt go dm af an] ts md]. apply IH.
Qed.

Lemma hoveredHex_valid_witness :
  validHex (2, 3).
Proof.
  apply (hoveredHex_valid
           (run initialWorld [Click 0 0 0; MouseMove (2, 3)]) (2, 3)).
  - apply reachable_run. apply reachable_init.
  - by vm_compute.
Defined.
